(** * Scorecard: the game state, its handlers and its derived views

    A shallow embedding of [App.tsx] and [types.ts] of the Scorecard
    application.  The React component keeps five pieces of state
    ([players], [rounds], [activeRoundIndex], [winCondition], [sortBy]);
    every handler is modelled as a function from the state before the event
    to the state after it, and every [useMemo] as a pure function of the
    state it depends on.

    Modelling conventions.
    - A JavaScript string is a [string]; each character stands for one code
      unit below 256.
    - A score is an integer, as produced by [parseInt]; it is taken in [Z].
      The handlers and the views are first given with exact sums, which is
      what the program computes as long as the entries stay within 2^53 in
      total; the totals and the leader are then given a second time over
      doubles ([jsnum], rounding and infinities included), and the two are
      proved to agree in that range.  -0 is identified with 0, which no
      comparison or sum of the program tells apart.
    - A number that may also be [NaN] (the result of [parseInt], the active
      round index) is a [number].
    - An object used as a dictionary ([RoundScores], the totals) is a
      [gmap string Z]; keys are player ids, which the program generates as
      decimal digit strings, so that no key is the name of a property that
      every object inherits.  The second account of the totals drops that
      assumption and follows the object with its prototype.
    - [rounds] has the declared type [RoundScores[]]: a dense list. *)

From Stdlib Require Import ZArith Lia Ascii String DecimalString DecimalZ.
From stdpp Require Import gmap strings list fin_maps sorting.

Local Open Scope Z_scope.

(** ** The JavaScript primitives the program calls *)

Module Js.

(** A number that is an integer or [NaN]. *)
Inductive number : Type :=
  | NaN
  | Num (z : Z).

(** [a === b] on numbers: [NaN] is equal to nothing. *)
Definition strict_eq (a b : number) : bool :=
  match a, b with
  | Num x, Num y => x =? y
  | _, _ => false
  end.

(** [a > b] on numbers: false as soon as one side is [NaN]. *)
Definition gt (a b : number) : bool :=
  match a, b with
  | Num x, Num y => y <? x
  | _, _ => false
  end.

Definition add (a b : number) : number :=
  match a, b with
  | Num x, Num y => Num (x + y)
  | _, _ => NaN
  end.

Definition sub (a b : number) : number :=
  match a, b with
  | Num x, Num y => Num (x - y)
  | _, _ => NaN
  end.

(** White space and line terminators among the code units below 256:
    TAB, LF, VT, FF, CR, SP and NBSP. *)
Definition isWhiteSpace (c : ascii) : bool :=
  let n := nat_of_ascii c in
  ((9 <=? n) && (n <=? 13) || (n =? 32) || (n =? 160))%nat.

Definition isDigit (c : ascii) : bool :=
  let n := nat_of_ascii c in
  ((48 <=? n) && (n <=? 57))%nat.

Definition digitValue (c : ascii) : Z :=
  Z.of_nat (nat_of_ascii c) - 48.

Fixpoint trimStart (s : string) : string :=
  match s with
  | EmptyString => EmptyString
  | String c s' => if isWhiteSpace c then trimStart s' else s
  end.

Fixpoint trimEnd (s : string) : string :=
  match s with
  | EmptyString => EmptyString
  | String c s' =>
      match trimEnd s' with
      | EmptyString => if isWhiteSpace c then EmptyString else String c EmptyString
      | t => String c t
      end
  end.

(** [String.prototype.trim]. *)
Definition trim (s : string) : string := trimEnd (trimStart s).

(** The value of the longest prefix of decimal digits, [None] when that
    prefix is empty. *)
Fixpoint digitsPrefix (acc : option Z) (s : string) : option Z :=
  match s with
  | EmptyString => acc
  | String c s' =>
      if isDigit c
      then digitsPrefix (Some (10 * default 0 acc + digitValue c)) s'
      else acc
  end.

(** [parseInt(s, 10)]: leading white space is skipped, one sign is
    accepted, the longest run of digits is read and whatever follows is
    ignored; without a digit the result is [NaN].  The integer read is
    given exactly; the number the program gets is the double nearest to it,
    which is the integer itself up to 2^53. *)
Definition parseInt (s : string) : number :=
  let t := trimStart s in
  let '(sign, body) :=
    match t with
    | String "-" r => (-1, r)
    | String "+" r => (1, r)
    | _ => (1, t)
    end in
  match digitsPrefix None body with
  | None => NaN
  | Some m => Num (sign * m)
  end.

(** [Number.prototype.toString] on an integer below 10^21 in absolute
    value, where it is the decimal writing (clock readings and scores that
    doubles hold exactly are in that range). *)
Definition toString (z : Z) : string :=
  NilZero.string_of_int (Z.to_int z).

(** Truthiness of a string: only the empty string is falsy. *)
Definition truthy (s : string) : bool :=
  match s with EmptyString => false | String _ _ => true end.

End Js.

Import Js.

(** ** types.ts *)

Record Player : Type := mkPlayer {
  id : string;
  name : string
}.

#[global] Instance Player_eq_dec : EqDecision Player.
Proof. solve_decision. Defined.

(** A round is a map of player ids to their score for that round. *)
Abbreviation RoundScores := (gmap string Z).

(** ** The state of [App] *)

(** ['high' | 'low'] *)
Inductive WinCondition : Type := High | Low.

(** ['default' | 'scoreDesc' | 'scoreAsc' | 'nameAsc'] *)
Inductive SortOption : Type := SortDefault | ScoreDesc | ScoreAsc | NameAsc.

Record State : Type := mkState {
  players : list Player;
  rounds : list RoundScores;
  activeRoundIndex : number;
  winCondition : WinCondition;
  sortBy : SortOption
}.

(** ** Derived state *)

(** [players.forEach(p => totals[p.id] = 0)] *)
Definition initTotals (ps : list Player) : gmap string Z :=
  foldl (λ totals p, <[id p := 0]> totals) ∅ ps.

(** [if (totals[playerId] !== undefined) totals[playerId] += score] *)
Definition addEntry (playerId : string) (score : Z) (totals : gmap string Z)
  : gmap string Z :=
  match totals !! playerId with
  | Some t => <[playerId := t + score]> totals
  | None => totals
  end.

(** [Object.entries(round).forEach(...)] *)
Definition addRound (totals : gmap string Z) (round : RoundScores)
  : gmap string Z :=
  map_fold addEntry totals round.

(** The [totalScores] memo. *)
Definition totalScores (ps : list Player) (rs : list RoundScores)
  : gmap string Z :=
  foldl addRound (initTotals ps) rs.

(** [totals[k]] read as an operand of arithmetic: [undefined] becomes
    [NaN]. *)
Definition totalOf (totals : gmap string Z) (k : string) : number :=
  match totals !! k with
  | Some t => Num t
  | None => NaN
  end.

(** The running best of the leader scan, which starts at an infinity. *)
Inductive bound : Type :=
  | NegInfinity
  | PosInfinity
  | Finite (z : Z).

(** [score > bestScore] *)
Definition scoreAbove (score : number) (bestScore : bound) : bool :=
  match score, bestScore with
  | NaN, _ => false
  | Num _, NegInfinity => true
  | Num _, PosInfinity => false
  | Num x, Finite b => b <? x
  end.

(** [score < bestScore] *)
Definition scoreBelow (score : number) (bestScore : bound) : bool :=
  match score, bestScore with
  | NaN, _ => false
  | Num _, PosInfinity => true
  | Num _, NegInfinity => false
  | Num x, Finite b => x <? b
  end.

(** One iteration of [for (const p of players)]. *)
Definition leaderStep (w : WinCondition) (totals : gmap string Z)
    (acc : bound * option string) (p : Player) : bound * option string :=
  let score := totalOf totals (id p) in
  let improves :=
    match w with
    | High => scoreAbove score (fst acc)
    | Low => scoreBelow score (fst acc)
    end in
  match score with
  | Num x => if improves then (Finite x, Some (id p)) else acc
  | NaN => acc
  end.

Definition leaderScan (w : WinCondition) (totals : gmap string Z)
    (ps : list Player) : bound * option string :=
  foldl (leaderStep w totals)
        (match w with High => NegInfinity | Low => PosInfinity end, None) ps.

(** The [leaderId] memo; [None] is [null]. *)
Definition leaderId (ps : list Player) (totals : gmap string Z)
    (w : WinCondition) : option string :=
  if (length ps =? 0)%nat then None
  else if forallb (λ p, strict_eq (totalOf totals (id p)) (Num 0)) ps then None
  else snd (leaderScan w totals ps).

(** [Array.prototype.sort] with a comparator.  A comparator result that is
    [NaN] counts as 0, and the sort is stable: with a consistent comparator
    the result is the one stable arrangement in order, which the insertion
    sort below computes. *)
Section Sort.
Context {A : Type} (cmp : A → A → number).

(** [a] may stay in front of [b]: [cmp a b] is not positive. *)
Definition keeps (a b : A) : bool := negb (gt (cmp a b) (Num 0)).

Fixpoint insertSorted (x : A) (l : list A) : list A :=
  match l with
  | [] => [x]
  | y :: l' => if keeps x y then x :: l else y :: insertSorted x l'
  end.

Definition sort (l : list A) : list A := foldr insertSorted [] l.
End Sort.

Section Views.
(** [String.prototype.localeCompare]: negative, zero or positive, as the
    host's collation decides. *)
Variable localeCompare : string → string → Z.

(** The [sortedPlayers] memo. *)
Definition sortedPlayers (ps : list Player) (totals : gmap string Z)
    (by_ : SortOption) : list Player :=
  let sorted := ps in
  match by_ with
  | ScoreDesc =>
      sort (λ a b, sub (totalOf totals (id b)) (totalOf totals (id a))) sorted
  | ScoreAsc =>
      sort (λ a b, sub (totalOf totals (id a)) (totalOf totals (id b))) sorted
  | NameAsc =>
      sort (λ a b, Num (localeCompare (name a) (name b))) sorted
  | SortDefault => sorted
  end.
End Views.

(** ** Handlers *)

Definition set_players (ps : list Player) (s : State) : State :=
  mkState ps (rounds s) (activeRoundIndex s) (winCondition s) (sortBy s).
Definition set_rounds (rs : list RoundScores) (s : State) : State :=
  mkState (players s) rs (activeRoundIndex s) (winCondition s) (sortBy s).
Definition set_activeRoundIndex (i : number) (s : State) : State :=
  mkState (players s) (rounds s) i (winCondition s) (sortBy s).
Definition set_winCondition (w : WinCondition) (s : State) : State :=
  mkState (players s) (rounds s) (activeRoundIndex s) w (sortBy s).
Definition set_sortBy (o : SortOption) (s : State) : State :=
  mkState (players s) (rounds s) (activeRoundIndex s) (winCondition s) o.

(** [handleAddPlayer]; [now] is the reading of [Date.now()] and
    [newPlayerName] the content of the name field. *)
Definition handleAddPlayer (now : Z) (newPlayerName : string) (s : State)
  : State :=
  if negb (truthy (trim newPlayerName)) then s
  else
    let newPlayer := {| id := toString now; name := trim newPlayerName |} in
    set_players (players s ++ [newPlayer]) s.

(** [newRounds[i] = { ...newRounds[i], [playerId]: numValue }] on a copy of
    the array.  Inside the array the round is replaced; at an index past the
    end JavaScript extends the array, the slots in between staying empty
    (they are visited by no [forEach], like the empty rounds that stand for
    them here); an index that is negative or [NaN] names no element, and the
    elements stay as they are (the property that JavaScript sets on the
    array under that name is not kept).  The statements on what is written
    take an index that refers to an existing round. *)
Definition writeScore (i : number) (playerId : string) (numValue : Z)
    (rs : list RoundScores) : list RoundScores :=
  match i with
  | NaN => rs
  | Num z =>
      if z <? 0 then rs
      else
        let k := Z.to_nat z in
        match rs !! k with
        | Some round => <[k := <[playerId := numValue]> round]> rs
        | None =>
            rs ++ replicate (k - length rs) ∅ ++ [ {[ playerId := numValue ]} ]
        end
  end.

(** [handleScoreChange] *)
Definition handleScoreChange (playerId value : string) (s : State) : State :=
  let numValue := if String.eqb value "" then Num 0 else parseInt value in
  match numValue with
  | NaN => s (* if (isNaN(numValue)) return; *)
  | Num n => set_rounds (writeScore (activeRoundIndex s) playerId n (rounds s)) s
  end.

(** [handleNextRound] *)
Definition handleNextRound (s : State) : State :=
  let rs :=
    if strict_eq (activeRoundIndex s) (Num (Z.of_nat (length (rounds s)) - 1))
    then rounds s ++ [∅]
    else rounds s in
  mkState (players s) rs (add (activeRoundIndex s) (Num 1))
          (winCondition s) (sortBy s).

(** [handlePrevRound] *)
Definition handlePrevRound (s : State) : State :=
  if gt (activeRoundIndex s) (Num 0)
  then set_activeRoundIndex (sub (activeRoundIndex s) (Num 1)) s
  else s.

(** [handleDeletePlayer] *)
Definition handleDeletePlayer (i : string) (s : State) : State :=
  set_players (filter (λ p, id p ≠ i) (players s)) s.

(** [resetGame]; [confirmed] is the answer to the [confirm] dialog. *)
Definition resetGame (confirmed : bool) (s : State) : State :=
  if confirmed
  then mkState (players s) [∅] (Num 0) (winCondition s) (sortBy s)
  else s.

(** [toggleWinCondition] *)
Definition toggleWinCondition (s : State) : State :=
  set_winCondition (match winCondition s with High => Low | Low => High end) s.

(** [setSortBy], called by the sort selector. *)
Definition setSortBy (o : SortOption) (s : State) : State := set_sortBy o s.

(** The events of the application. *)
Inductive Event : Type :=
  | AddPlayer (now : Z) (newPlayerName : string)
  | ScoreChange (playerId value : string)
  | NextRound
  | PrevRound
  | DeletePlayer (i : string)
  | ResetGame (confirmed : bool)
  | ToggleWinCondition
  | SetSortBy (o : SortOption).

Definition handle (e : Event) (s : State) : State :=
  match e with
  | AddPlayer now n => handleAddPlayer now n s
  | ScoreChange p v => handleScoreChange p v s
  | NextRound => handleNextRound s
  | PrevRound => handlePrevRound s
  | DeletePlayer i => handleDeletePlayer i s
  | ResetGame c => resetGame c s
  | ToggleWinCondition => toggleWinCondition s
  | SetSortBy o => setSortBy o s
  end.

(** ** Loading the state from local storage *)

(** [localStorage.getItem]: [None] is [null]. *)
Definition Storage : Type := string → option string.

Section Persistence.
(** [JSON.parse] at the two types it is used at; [None] stands for the
    [SyntaxError] it throws on text that is not JSON. *)
Variable parsePlayers : string → option (list Player).
Variable parseRounds : string → option (list RoundScores).

Definition loadPlayers (getItem : Storage) : list Player :=
  match getItem "cardScore_players"%string with
  | Some saved =>
      if truthy saved
      then match parsePlayers saved with Some v => v | None => [] end
      else []
  | None => []
  end.

Definition loadRounds (getItem : Storage) : list RoundScores :=
  match getItem "cardScore_rounds"%string with
  | Some saved =>
      if truthy saved
      then match parseRounds saved with Some v => v | None => [∅] end
      else [∅]
  | None => [∅]
  end.

Definition loadActiveRoundIndex (getItem : Storage) : number :=
  match getItem "cardScore_activeRoundIndex"%string with
  | Some saved => if truthy saved then parseInt saved else Num 0
  | None => Num 0
  end.

Definition loadWinCondition (getItem : Storage) : WinCondition :=
  match getItem "cardScore_winCondition"%string with
  | Some saved =>
      if String.eqb saved "high" then High
      else if String.eqb saved "low" then Low
      else High
  | None => High
  end.

Definition loadSortBy (getItem : Storage) : SortOption :=
  match getItem "cardScore_sortBy"%string with
  | Some saved =>
      if String.eqb saved "default" then SortDefault
      else if String.eqb saved "scoreDesc" then ScoreDesc
      else if String.eqb saved "scoreAsc" then ScoreAsc
      else if String.eqb saved "nameAsc" then NameAsc
      else SortDefault
  | None => SortDefault
  end.

(** The five [useState] initialisers. *)
Definition initialState (getItem : Storage) : State :=
  {| players := loadPlayers getItem;
     rounds := loadRounds getItem;
     activeRoundIndex := loadActiveRoundIndex getItem;
     winCondition := loadWinCondition getItem;
     sortBy := loadSortBy getItem |}.
End Persistence.

(** ** Vocabulary of the statements *)

(** The totals of a state. *)
Definition totalsOf (s : State) : gmap string Z :=
  totalScores (players s) (rounds s).

(** The leader of a state. *)
Definition leaderOf (s : State) : option string :=
  leaderId (players s) (totalsOf s) (winCondition s).

(** The contribution of one round to the total of [k]: the entry, or 0
    when there is none. *)
Definition scoreIn (k : string) (round : RoundScores) : Z :=
  default 0 (round !! k).

(** The sum over all rounds of the entries of [k]. *)
Definition sumOfEntries (k : string) (rs : list RoundScores) : Z :=
  foldr Z.add 0 (scoreIn k <$> rs).

(** [activeRoundIndex] refers to an existing round. *)
Definition validIndex (s : State) : Prop :=
  ∃ z, activeRoundIndex s = Num z ∧ 0 ≤ z ≤ Z.of_nat (length (rounds s)) - 1.

(** A run of events. *)
Definition run (es : list Event) (s : State) : State :=
  foldl (λ st e, handle e st) s es.


(** The reading of C3 that the program does not meet: the player that is
    appended has an id that no player had before. *)
Definition addPlayerFreshId (now : Z) (newPlayerName : string) (s : State)
  : Prop :=
  trim newPlayerName ≠ ""%string →
  ∃ p, players (handleAddPlayer now newPlayerName s) = players s ++ [p]
       ∧ name p = trim newPlayerName
       ∧ id p ∉ id <$> players s.

(** A storage that holds one key. *)
Definition singleKey (key value : string) : Storage :=
  λ k, if String.eqb k key then Some value else None.

(** Total [a] is strictly better than total [b]. *)
Definition beats (w : WinCondition) (a b : Z) : Prop :=
  match w with
  | High => b < a
  | Low => a < b
  end.

#[global] Instance beats_dec (w : WinCondition) (a b : Z) : Decision (beats w a b).
Proof. destruct w; simpl; apply _. Defined.

(** The total of a current player. *)
Definition totalOfPlayer (s : State) (p : Player) : Z :=
  default 0 (totalsOf s !! id p).

(** Bytewise lexicographic comparison, the collation of the examples. *)
Fixpoint lexCompare (a b : string) : Z :=
  match a, b with
  | EmptyString, EmptyString => 0
  | EmptyString, String _ _ => -1
  | String _ _, EmptyString => 1
  | String c a', String d b' =>
      if (nat_of_ascii c <? nat_of_ascii d)%nat then -1
      else if (nat_of_ascii d <? nat_of_ascii c)%nat then 1
      else lexCompare a' b'
  end.


(** ** Saving, and what the page shows *)

(** [Number.prototype.toString] on a number that may be [NaN]. *)
Definition numberToString (n : number) : string :=
  match n with
  | NaN => "NaN"
  | Num z => toString z
  end.

(** [localStorage.setItem]. *)
Definition setItem (key value : string) (st : Storage) : Storage :=
  λ k, if String.eqb k key then Some value else st k.

(** The text of a win condition and of a sort option, which is what the
    program holds in its state. *)
Definition winConditionText (w : WinCondition) : string :=
  match w with High => "high" | Low => "low" end.

Definition sortByText (o : SortOption) : string :=
  match o with
  | SortDefault => "default"
  | ScoreDesc => "scoreDesc"
  | ScoreAsc => "scoreAsc"
  | NameAsc => "nameAsc"
  end.

Section Saving.
(** [JSON.stringify] at the two types it is used at. *)
Variable stringifyPlayers : list Player → string.
Variable stringifyRounds : list RoundScores → string.

(** The five persistence effects, in the order of the source. *)
Definition persist (s : State) (st : Storage) : Storage :=
  setItem "cardScore_sortBy" (sortByText (sortBy s))
    (setItem "cardScore_winCondition" (winConditionText (winCondition s))
       (setItem "cardScore_activeRoundIndex" (numberToString (activeRoundIndex s))
          (setItem "cardScore_rounds" (stringifyRounds (rounds s))
             (setItem "cardScore_players" (stringifyPlayers (players s)) st)))).
End Saving.

(** What a key can hold that gives no value: nothing, the empty string, or
    a text that [JSON.parse] refuses. *)
Definition unusable {A : Type} (parse : string → option A) (o : option string)
  : Prop :=
  o = None ∨ o = Some ""%string ∨ ∃ saved, o = Some saved ∧ parse saved = None.

(** The [numValue] of [handleScoreChange]. *)
Definition numValueOf (value : string) : number :=
  if String.eqb value "" then Num 0 else parseInt value.

(** [rounds[activeRoundIndex] || {}]; an index that names no element reads
    [undefined].  The list keeps the elements of the array only: what
    [handleScoreChange] wrote under a name that is no index is not read
    back here, and the statements on this definition take an index that
    refers to an existing round. *)
Definition currentRoundScores (s : State) : RoundScores :=
  match activeRoundIndex s with
  | NaN => ∅
  | Num z => if z <? 0 then ∅ else default ∅ (rounds s !! Z.to_nat z)
  end.

(** The [value] of a player's score field:
    [currentRoundScores[player.id] === undefined ? '' : currentRoundScores[player.id]]. *)
Definition scoreInputValue (s : State) (p : Player) : string :=
  match currentRoundScores s !! id p with
  | None => ""
  | Some n => toString n
  end.

(** [disabled={activeRoundIndex === 0}] on the Prev button. *)
Definition prevDisabled (s : State) : bool :=
  strict_eq (activeRoundIndex s) (Num 0).

(** [disabled={!newPlayerName.trim()}] on the Add Player button. *)
Definition addDisabled (newPlayerName : string) : bool :=
  negb (truthy (trim newPlayerName)).

(** [leaderId === player.id], which puts the trophy on a card. *)
Definition hasTrophy (s : State) (p : Player) : bool :=
  match leaderOf s with
  | Some l => String.eqb l (id p)
  | None => false
  end.


(** The value of a decimal numeral read from the left, after [acc]. *)
Fixpoint uintVal (d : Decimal.uint) (acc : Z) : Z :=
  match d with
  | Decimal.Nil => acc
  | Decimal.D0 d' => uintVal d' (10 * acc)
  | Decimal.D1 d' => uintVal d' (10 * acc + 1)
  | Decimal.D2 d' => uintVal d' (10 * acc + 2)
  | Decimal.D3 d' => uintVal d' (10 * acc + 3)
  | Decimal.D4 d' => uintVal d' (10 * acc + 4)
  | Decimal.D5 d' => uintVal d' (10 * acc + 5)
  | Decimal.D6 d' => uintVal d' (10 * acc + 6)
  | Decimal.D7 d' => uintVal d' (10 * acc + 7)
  | Decimal.D8 d' => uintVal d' (10 * acc + 8)
  | Decimal.D9 d' => uintVal d' (10 * acc + 9)
  end.

(** Every player has a name that is not empty and carries no white space
    at either end. *)
Definition namesTrimmed (s : State) : Prop :=
  ∀ p, p ∈ players s → name p ≠ ""%string ∧ trim (name p) = name p.

(** Every id is the writing of a clock reading earlier than [t]. *)
Definition idsBefore (t : Z) (s : State) : Prop :=
  ∀ p, p ∈ players s → ∃ u, id p = toString u ∧ u < t.

(** From [t] on, the clock readings of the additions in a run strictly
    increase. *)
Fixpoint clockIncreasing (t : Z) (es : list Event) : Prop :=
  match es with
  | [] => True
  | AddPlayer now _ :: es' => t ≤ now ∧ clockIncreasing (now + 1) es'
  | _ :: es' => clockIncreasing t es'
  end.

(** ** The totals and the leader over the whole range of numbers

    The definitions above take scores in [Z], where sums are exact, and the
    totals in a map without inherited properties.  The program's numbers
    are doubles and its [totals] is a plain object: the definitions of this
    part follow the source on that ground.  They agree with the ones above
    as long as the entries stay within 2^53 in total and no key is the name
    of a property of [Object.prototype]. *)

(** A number whose value is an integer, an infinity or [NaN]. *)
Inductive jsnum : Type :=
  | JNaN
  | JPosInf
  | JNegInf
  | JInt (z : Z).

(** 2^53: up to it every integer is a double. *)
Definition maxSafe : Z := 9007199254740992.

(** The double nearest to an integer, ties to the even mantissa, an
    infinity from 2^1024 on. *)
Definition roundDouble (z : Z) : jsnum :=
  let a := Z.abs z in
  if a <=? maxSafe then JInt z
  else
    let e := Z.log2 a - 52 in
    let m := a / 2 ^ e in
    let r := a mod 2 ^ e in
    let half := 2 ^ (e - 1) in
    let m' := if (half <? r) || ((r =? half) && Z.odd m) then m + 1 else m in
    let v := m' * 2 ^ e in
    if 2 ^ 1024 <=? v then (if z <? 0 then JNegInf else JPosInf)
    else JInt (Z.sgn z * v).

(** [a + b] on doubles. *)
Definition jadd (a b : jsnum) : jsnum :=
  match a, b with
  | JNaN, _ | _, JNaN => JNaN
  | JPosInf, JNegInf | JNegInf, JPosInf => JNaN
  | JPosInf, _ | _, JPosInf => JPosInf
  | JNegInf, _ | _, JNegInf => JNegInf
  | JInt x, JInt y => roundDouble (x + y)
  end.

(** [a < b] on doubles. *)
Definition jlt (a b : jsnum) : bool :=
  match a, b with
  | JNaN, _ | _, JNaN => false
  | _, JNegInf => false
  | JPosInf, _ => false
  | JNegInf, _ => true
  | _, JPosInf => true
  | JInt x, JInt y => x <? y
  end.

(** [a > b] on doubles. *)
Definition jgt (a b : jsnum) : bool := jlt b a.

(** What a property of [totals] can hold: a number, or something else (a
    function inherited from [Object.prototype], the prototype itself, the
    string that [+=] makes of either). *)
Inductive tval : Type :=
  | TNum (x : jsnum)
  | TOther.

(** The names of the properties of [Object.prototype]. *)
Definition inherited (k : string) : bool :=
  bool_decide (k ∈ ["constructor"; "toString"; "valueOf"; "toLocaleString";
                    "hasOwnProperty"; "isPrototypeOf"; "propertyIsEnumerable";
                    "__proto__"; "__defineGetter__"; "__defineSetter__";
                    "__lookupGetter__"; "__lookupSetter__"]%string).

(** [totals[k]], on the own properties [own] of [totals]; [None] is
    [undefined]. *)
Definition readTotal (own : gmap string tval) (k : string) : option tval :=
  match own !! k with
  | Some v => Some v
  | None => if inherited k then Some TOther else None
  end.

(** [totals[k] = v]: the setter of [__proto__] ignores what is not an
    object, every other name becomes an own property. *)
Definition writeTotal (own : gmap string tval) (k : string) (v : tval)
  : gmap string tval :=
  if String.eqb k "__proto__" then own else <[k := v]> own.

(** [v + score] *)
Definition plusD (v : tval) (score : Z) : tval :=
  match v with
  | TNum x => TNum (jadd x (JInt score))
  | TOther => TOther
  end.

Definition initTotalsD (ps : list Player) : gmap string tval :=
  foldl (λ own p, writeTotal own (id p) (TNum (JInt 0))) ∅ ps.

Definition addEntryD (playerId : string) (score : Z) (own : gmap string tval)
  : gmap string tval :=
  match readTotal own playerId with
  | Some v => writeTotal own playerId (plusD v score)
  | None => own
  end.

Definition addRoundD (own : gmap string tval) (round : RoundScores)
  : gmap string tval :=
  map_fold addEntryD own round.

(** The [totalScores] memo: the own properties of the object it returns. *)
Definition totalScoresD (ps : list Player) (rs : list RoundScores)
  : gmap string tval :=
  foldl addRoundD (initTotalsD ps) rs.

(** A total as an operand of a comparison. *)
Definition toNumber (o : option tval) : jsnum :=
  match o with
  | Some (TNum x) => x
  | _ => JNaN
  end.

(** [totalScores[p.id] === 0] *)
Definition isZero (o : option tval) : bool :=
  match o with
  | Some (TNum (JInt 0)) => true
  | _ => false
  end.

Definition leaderStepD (w : WinCondition) (own : gmap string tval)
    (acc : jsnum * option string) (p : Player) : jsnum * option string :=
  let score := toNumber (readTotal own (id p)) in
  let improves :=
    match w with
    | High => jgt score (fst acc)
    | Low => jlt score (fst acc)
    end in
  if improves then (score, Some (id p)) else acc.

(** The [leaderId] memo. *)
Definition leaderIdD (ps : list Player) (own : gmap string tval)
    (w : WinCondition) : option string :=
  if (length ps =? 0)%nat then None
  else if forallb (λ p, isZero (readTotal own (id p))) ps then None
  else snd (foldl (leaderStepD w own)
                  (match w with High => JNegInf | Low => JPosInf end, None) ps).

Definition totalsOfD (s : State) : gmap string tval :=
  totalScoresD (players s) (rounds s).

Definition leaderOfD (s : State) : option string :=
  leaderIdD (players s) (totalsOfD s) (winCondition s).

(** The running best of the exact scan as a double. *)
Definition boundOf (b : bound) : jsnum :=
  match b with
  | NegInfinity => JNegInf
  | PosInfinity => JPosInf
  | Finite z => JInt z
  end.

(** Exact totals as own properties. *)
Definition embedTotals (t : gmap string Z) : gmap string tval :=
  (λ z, TNum (JInt z)) <$> t.

(** No key of a round is the name of a property of [Object.prototype]. *)
Definition plainRounds (rs : list RoundScores) : Prop :=
  Forall (map_Forall (λ k _, inherited k = false)) rs.

(** Nor is any player id. *)
Definition plainKeys (s : State) : Prop :=
  Forall (λ p, inherited (id p) = false) (players s) ∧ plainRounds (rounds s).

(** The absolute values of the entries of a round, of all rounds, added
    up. *)
Definition roundMagnitude (round : RoundScores) : Z :=
  map_fold (λ _ e acc, Z.abs e + acc) 0 round.

Definition magnitude (rs : list RoundScores) : Z :=
  foldr (λ r acc, roundMagnitude r + acc) 0 rs.

(** The totals read off [t], as a map. *)
Definition totalsFrom (t : Player → Z) (ps : list Player) : gmap string Z :=
  foldr (λ p m, <[id p := t p]> m) ∅ ps.




(** An index whose writing is its decimal writing: [NaN], or an integer
    that a double holds exactly. *)
Definition plainIndex (i : number) : Prop :=
  match i with
  | NaN => True
  | Num z => Z.abs z ≤ maxSafe
  end.


(** The reading of C4 that the program does not meet: no leader exactly
    when there is no player or every total is 0. *)
Definition noLeaderIffAllZero (s : State) : Prop :=
  leaderOfD s = None
  ↔ players s = []
    ∨ ∀ p, p ∈ players s → readTotal (totalsOfD s) (id p) = Some (TNum (JInt 0)).


(** ** The totals *)

Lemma initTotals_fold_lookup (ps : list Player) (m : gmap string Z) (k : string) :
  foldl (λ totals p, <[id p := 0]> totals) m ps !! k
  = if decide (k ∈ id <$> ps) then Some 0 else m !! k.
Proof.
  revert m. induction ps as [|p ps IH]; intros m.
  - rewrite decide_False; [done|]. rewrite fmap_nil. apply not_elem_of_nil.
  - rewrite fmap_cons. change (foldl ?f m (p :: ps)) with (foldl f (<[id p := 0]> m) ps).
    rewrite IH. destruct (decide (k = id p)) as [->|Hne].
    + rewrite lookup_insert_eq, (decide_True (P := id p ∈ id p :: _))
        by apply list_elem_of_here.
      by destruct (decide _).
    + rewrite lookup_insert_ne by done.
      destruct (decide (k ∈ id <$> ps)) as [Hin|Hin].
      * rewrite decide_True; [done | by apply list_elem_of_further].
      * rewrite decide_False; [done |].
        intros [?|?]%elem_of_cons; done.
Qed.

Lemma initTotals_lookup (ps : list Player) (k : string) :
  initTotals ps !! k = if decide (k ∈ id <$> ps) then Some 0 else None.
Proof. unfold initTotals. by rewrite initTotals_fold_lookup, lookup_empty. Qed.

Lemma addEntry_lookup (i : string) (x : Z) (t : gmap string Z) (k : string) :
  addEntry i x t !! k
  = (λ v, if decide (k = i) then v + x else v) <$> t !! k.
Proof.
  unfold addEntry. destruct (t !! i) as [ti|] eqn:Hi.
  - destruct (decide (k = i)) as [->|Hne].
    + by rewrite lookup_insert_eq, Hi.
    + rewrite lookup_insert_ne by done. by destruct (t !! k).
  - destruct (decide (k = i)) as [->|Hne].
    + by rewrite Hi.
    + by destruct (t !! k).
Qed.

Lemma addRound_lookup (t : gmap string Z) (round : RoundScores) (k : string) :
  addRound t round !! k = (λ v, v + scoreIn k round) <$> t !! k.
Proof.
  unfold addRound. revert k.
  apply (map_fold_weak_ind
           (λ res m, ∀ k, res !! k = (λ v, v + scoreIn k m) <$> t !! k)).
  - intros k. unfold scoreIn. rewrite lookup_empty. simpl.
    destruct (t !! k); simpl; f_equal; lia.
  - intros i x m r Hfresh IH k. rewrite addEntry_lookup, IH. unfold scoreIn.
    destruct (decide (k = i)) as [->|Hne].
    + rewrite lookup_insert_eq, Hfresh. simpl.
      destruct (t !! i); simpl; f_equal; lia.
    + rewrite lookup_insert_ne by done. by destruct (t !! k).
Qed.

Lemma sumOfEntries_nil (k : string) : sumOfEntries k [] = 0.
Proof. reflexivity. Qed.

Lemma sumOfEntries_cons (k : string) (r : RoundScores) (rs : list RoundScores) :
  sumOfEntries k (r :: rs) = scoreIn k r + sumOfEntries k rs.
Proof. reflexivity. Qed.

Lemma foldl_addRound_lookup (rs : list RoundScores) (t : gmap string Z) (k : string) :
  foldl addRound t rs !! k = (λ v, v + sumOfEntries k rs) <$> t !! k.
Proof.
  revert t. induction rs as [|r rs IH]; intros t.
  - rewrite sumOfEntries_nil. cbn [foldl].
    destruct (t !! k); simpl; f_equal; lia.
  - rewrite sumOfEntries_cons. cbn [foldl]. rewrite IH, addRound_lookup.
    destruct (t !! k); simpl; f_equal; lia.
Qed.

Lemma totalScores_lookup (ps : list Player) (rs : list RoundScores) (k : string) :
  totalScores ps rs !! k
  = if decide (k ∈ id <$> ps) then Some (sumOfEntries k rs) else None.
Proof.
  unfold totalScores. rewrite foldl_addRound_lookup, initTotals_lookup.
  case_decide; simpl; [f_equal; lia | done].
Qed.

Lemma totalScores_player (ps : list Player) (rs : list RoundScores) (p : Player) :
  p ∈ ps → totalScores ps rs !! id p = Some (sumOfEntries (id p) rs).
Proof.
  intros Hp. rewrite totalScores_lookup.
  case_decide as H; [done|]. exfalso. apply H. by apply list_elem_of_fmap_2.
Qed.

Lemma totalScores_dom (ps : list Player) (rs : list RoundScores) :
  dom (totalScores ps rs) = list_to_set (id <$> ps).
Proof.
  apply set_eq. intros k.
  rewrite elem_of_dom, elem_of_list_to_set, totalScores_lookup.
  case_decide; split; intros H'; try done.
Qed.

Lemma sumOfEntries_agree (k : string) (rs rs' : list RoundScores) :
  Forall2 (λ r r', r !! k = r' !! k) rs rs' →
  sumOfEntries k rs = sumOfEntries k rs'.
Proof.
  induction 1 as [|r r' rs rs' Hr _ IH]; [done|].
  rewrite !sumOfEntries_cons, IH. unfold scoreIn. by rewrite Hr.
Qed.

Lemma elem_of_ids_filter (i k : string) (ps : list Player) :
  k ∈ id <$> filter (λ p, id p ≠ i) ps ↔ k ∈ id <$> ps ∧ k ≠ i.
Proof.
  rewrite !list_elem_of_fmap. split.
  - intros (p & -> & [Hne Hp]%list_elem_of_filter). eauto.
  - intros [(p & -> & Hp) Hne]. exists p. split; [done|].
    by apply list_elem_of_filter.
Qed.

Lemma totalScores_delete (i : string) (ps : list Player) (rs : list RoundScores) :
  totalScores (filter (λ p, id p ≠ i) ps) rs = delete i (totalScores ps rs).
Proof.
  apply map_eq. intros k. rewrite lookup_delete, !totalScores_lookup.
  destruct (decide (i = k)) as [->|Hne].
  - rewrite decide_False; [done|]. rewrite elem_of_ids_filter. tauto.
  - destruct (decide (k ∈ id <$> ps)) as [Hin|Hin].
    + rewrite decide_True; [done|]. apply elem_of_ids_filter. auto.
    + rewrite decide_False; [done|]. rewrite elem_of_ids_filter. tauto.
Qed.

(** The exact totals have exactly the ids of the current players as keys;
    the total of a player is the sum over all rounds of that player's
    entries, a missing entry counting 0; the totals are the same for any
    rounds that agree on the entries of the current players, whatever they
    hold under other ids; and removing a player deletes that player's key
    and changes no other total. *)
Theorem totalScores_one_entry_per_player (s : State) :
  dom (totalsOf s) = list_to_set (id <$> players s)
  ∧ (∀ p, p ∈ players s →
       totalsOf s !! id p = Some (sumOfEntries (id p) (rounds s)))
  ∧ (∀ rs',
       Forall2 (λ r r', ∀ p, p ∈ players s → r !! id p = r' !! id p)
               (rounds s) rs' →
       totalScores (players s) rs' = totalsOf s)
  ∧ (∀ i, totalsOf (handleDeletePlayer i s) = delete i (totalsOf s)).
Proof.
  unfold totalsOf. repeat split.
  - apply totalScores_dom.
  - intros p Hp. by apply totalScores_player.
  - intros rs' Hagree. apply map_eq. intros k. rewrite !totalScores_lookup.
    destruct (decide (k ∈ id <$> players s)) as [Hin|]; [|done].
    f_equal. symmetry. apply sumOfEntries_agree.
    apply list_elem_of_fmap in Hin as (p & -> & Hp).
    eapply Forall2_impl; [exact Hagree|]. intros r r' Hr. by apply Hr.
  - intros i. apply totalScores_delete.
Qed.

Lemma totalScores_one_entry_per_player_witness :
  let s := mkState [mkPlayer "1" "Ann"; mkPlayer "2" "Bob"]
             [ {[ "1"%string := 3; "9"%string := 100 ]};
               {[ "1"%string := 4; "2"%string := -2 ]} ]
             (Num 1) High SortDefault in
  totalsOf s !! "1"%string = Some 7
  ∧ totalsOf (handleDeletePlayer "1" s) !! "2"%string = Some (-2)
  ∧ totalsOf (handleDeletePlayer "1" s) !! "1"%string = None.
Proof.
  intros s.
  destruct (totalScores_one_entry_per_player s) as (_ & Hsum & _ & Hdel).
  split; [|split].
  - apply (Hsum (mkPlayer "1" "Ann")). apply list_elem_of_here.
  - rewrite Hdel, lookup_delete_ne by discriminate.
    apply (Hsum (mkPlayer "2" "Bob")).
    apply list_elem_of_further, list_elem_of_here.
  - rewrite Hdel. apply lookup_delete_eq.
Defined.

(** ** Removing a player, resetting the game *)

Lemma filter_id_idem (i : string) (ps : list Player) :
  filter (λ p, id p ≠ i) (filter (λ p, id p ≠ i) ps) = filter (λ p, id p ≠ i) ps.
Proof.
  induction ps as [|p ps IH]; [done|].
  rewrite (filter_cons _ p ps). destruct (decide (id p ≠ i)) as [Hne|]; [|done].
  rewrite filter_cons, decide_True by done. by rewrite IH.
Qed.

(** C9.  A confirmed reset leaves one empty round and index 0 and keeps the
    players, the win condition and the sort preference; removing a player
    twice is removing it once, it drops from [players] the entries with
    that id and no other, in place, and it keeps [rounds] as they are, the
    removed id's entries included. *)
Theorem resetGame_handleDeletePlayer_frame (s : State) (i : string) :
  (rounds (resetGame true s) = [∅]
   ∧ activeRoundIndex (resetGame true s) = Num 0
   ∧ players (resetGame true s) = players s
   ∧ winCondition (resetGame true s) = winCondition s
   ∧ sortBy (resetGame true s) = sortBy s)
  ∧ handleDeletePlayer i (handleDeletePlayer i s) = handleDeletePlayer i s
  ∧ (∀ p, p ∈ players (handleDeletePlayer i s) ↔ p ∈ players s ∧ id p ≠ i)
  ∧ players (handleDeletePlayer i s) `sublist_of` players s
  ∧ rounds (handleDeletePlayer i s) = rounds s
  ∧ activeRoundIndex (handleDeletePlayer i s) = activeRoundIndex s
  ∧ winCondition (handleDeletePlayer i s) = winCondition s
  ∧ sortBy (handleDeletePlayer i s) = sortBy s.
Proof.
  split; [by repeat split|].
  split. { unfold handleDeletePlayer, set_players. simpl. by rewrite filter_id_idem. }
  split. { intros p. simpl. rewrite list_elem_of_filter. tauto. }
  split. { apply sublist_filter. }
  done.
Qed.

(** ** Round navigation *)

Lemma writeScore_nonempty (i : number) (k : string) (n : Z) (rs : list RoundScores) :
  rs ≠ [] → writeScore i k n rs ≠ [].
Proof.
  intros Hrs. unfold writeScore. destruct i as [|z]; [done|].
  destruct (z <? 0); [done|]. destruct (rs !! Z.to_nat z).
  - intros Heq. apply (f_equal length) in Heq. rewrite length_insert in Heq.
    by destruct rs.
  - by destruct rs.
Qed.

Lemma writeScore_valid (z : Z) (k : string) (n : Z) (rs : list RoundScores) (r : RoundScores) :
  0 ≤ z → rs !! Z.to_nat z = Some r →
  writeScore (Num z) k n rs = <[Z.to_nat z := <[k := n]> r]> rs.
Proof.
  intros Hz Hr. unfold writeScore.
  destruct (Z.ltb_spec z 0); [lia|]. by rewrite Hr.
Qed.

Lemma handle_rounds_nonempty (e : Event) (s : State) :
  rounds s ≠ [] → rounds (handle e s) ≠ [].
Proof.
  intros Hne. destruct e; simpl; try done.
  - unfold handleAddPlayer. by destruct (negb _).
  - unfold handleScoreChange. destruct (if String.eqb _ _ then _ else _); [done|].
    simpl. by apply writeScore_nonempty.
  - destruct (strict_eq _ _); [|done]. by destruct (rounds s).
  - unfold handlePrevRound. by destruct (gt _ _).
  - by destruct confirmed.
Qed.

Lemma validIndex_rounds_nonempty (s : State) : validIndex s → rounds s ≠ [].
Proof.
  intros (z & _ & Hz) Hnil. rewrite Hnil in Hz. simpl in Hz. lia.
Qed.

Lemma handleNextRound_validIndex (s : State) :
  validIndex s → validIndex (handleNextRound s).
Proof.
  intros (z & Hi & Hz). exists (z + 1). unfold handleNextRound. rewrite Hi.
  simpl. split; [done|].
  destruct (Z.eqb_spec z (Z.of_nat (length (rounds s)) - 1)).
  - rewrite length_app. simpl. lia.
  - lia.
Qed.

Lemma handlePrevRound_validIndex (s : State) :
  validIndex s → validIndex (handlePrevRound s).
Proof.
  intros (z & Hi & Hz). unfold handlePrevRound. rewrite Hi. simpl.
  destruct (Z.ltb_spec 0 z).
  - exists (z - 1). simpl. split; [done|lia].
  - exists z. split; [done|lia].
Qed.

Lemma handle_validIndex (e : Event) (s : State) :
  validIndex s → validIndex (handle e s).
Proof.
  intros Hv. destruct e; simpl.
  - unfold handleAddPlayer. by destruct (negb _).
  - unfold handleScoreChange. destruct (if String.eqb _ _ then _ else _); [done|].
    destruct Hv as (ix & Hi & Hz). exists ix. simpl. split; [done|].
    destruct (lookup_lt_is_Some_2 (rounds s) (Z.to_nat ix)) as [r Hr]; [lia|].
    rewrite Hi, (writeScore_valid _ _ _ _ r), length_insert by (done || lia). done.
  - by apply handleNextRound_validIndex.
  - by apply handlePrevRound_validIndex.
  - done.
  - destruct confirmed; [|done]. exists 0. simpl. split; [done|lia].
  - done.
  - done.
Qed.

Lemma run_validIndex (es : list Event) (s : State) :
  validIndex s → validIndex (run es s).
Proof.
  revert s. induction es as [|e es IH]; intros s Hv; [done|].
  apply IH. by apply handle_validIndex.
Qed.

(** C6.  From a state whose index refers to an existing round, next and
    previous lead to such a state again: next at the last index appends
    one empty round and increments the index, next elsewhere increments
    only, previous at index 0 changes nothing; and after any event, and
    any run of events, [rounds] is not empty. *)
Theorem round_navigation_keeps_index_valid (s : State) (z : Z) :
  activeRoundIndex s = Num z →
  0 ≤ z ≤ Z.of_nat (length (rounds s)) - 1 →
  validIndex (handleNextRound s)
  ∧ validIndex (handlePrevRound s)
  ∧ (z = Z.of_nat (length (rounds s)) - 1 →
       handleNextRound s
       = mkState (players s) (rounds s ++ [∅]) (Num (z + 1))
                 (winCondition s) (sortBy s))
  ∧ (z ≠ Z.of_nat (length (rounds s)) - 1 →
       handleNextRound s = set_activeRoundIndex (Num (z + 1)) s)
  ∧ (z = 0 → handlePrevRound s = s)
  ∧ (∀ e, rounds (handle e s) ≠ [])
  ∧ (∀ es, validIndex (run es s) ∧ rounds (run es s) ≠ []).
Proof.
  intros Hi Hz.
  assert (Hv : validIndex s) by (exists z; done).
  split; [by apply handleNextRound_validIndex|].
  split; [by apply handlePrevRound_validIndex|].
  split.
  { intros ->. unfold handleNextRound. rewrite Hi. simpl.
    by rewrite Z.eqb_refl. }
  split.
  { intros Hne. unfold handleNextRound, set_activeRoundIndex. rewrite Hi. simpl.
    destruct (Z.eqb_spec z (Z.of_nat (length (rounds s)) - 1)); done. }
  split.
  { intros ->. unfold handlePrevRound. by rewrite Hi. }
  split.
  { intros e. apply handle_rounds_nonempty. by apply validIndex_rounds_nonempty. }
  intros es. split; [by apply run_validIndex|].
  apply validIndex_rounds_nonempty. by apply run_validIndex.
Qed.

Lemma round_navigation_keeps_index_valid_witness :
  let s := mkState [] [∅; ∅] (Num 1) High SortDefault in
  rounds (handleNextRound s) = [∅; ∅; ∅]
  ∧ activeRoundIndex (handleNextRound s) = Num 2
  ∧ validIndex (handleNextRound s).
Proof.
  intros s.
  destruct (round_navigation_keeps_index_valid s 1) as (Hn & _ & Hlast & _).
  - reflexivity.
  - simpl. lia.
  - rewrite Hlast in * by reflexivity. repeat split. exact Hn.
Defined.

(** ** Entering a score *)

(** A non-empty input from which [parseInt] reads no integer is
    rejected: the handler returns the state it was given, the stored
    entries included. *)
Theorem handleScoreChange_rejects_non_numeric
    (s : State) (playerId value : string) :
  value ≠ ""%string → parseInt value = NaN →
  handleScoreChange playerId value s = s.
Proof.
  intros Hne Hnan. unfold handleScoreChange.
  apply String.eqb_neq in Hne. by rewrite Hne, Hnan.
Qed.

Lemma handleScoreChange_rejects_non_numeric_witness :
  let s := mkState [mkPlayer "p1" "Ann"] [ {[ "p1"%string := 4 ]} ] (Num 0)
                   High SortDefault in
  handleScoreChange "p1" "abc" s = s.
Proof.
  intros s. apply handleScoreChange_rejects_non_numeric.
  - discriminate.
  - reflexivity.
Defined.

(** What [parseInt] does read: digits after white space and a sign, up to
    the first character that is not a digit. *)
Example parseInt_reads_prefix :
  parseInt "-7" = Num (-7) ∧ parseInt "12abc" = Num 12
  ∧ parseInt "  +42 " = Num 42 ∧ parseInt "abc" = NaN
  ∧ parseInt "-" = NaN ∧ parseInt " " = NaN ∧ parseInt "1.5" = Num 1.
Proof. by repeat split. Qed.


Lemma sumOfEntries_insert (k : string) (i : nat) (r r' : RoundScores)
    (rs : list RoundScores) :
  rs !! i = Some r →
  sumOfEntries k (<[i := r']> rs) = sumOfEntries k rs - scoreIn k r + scoreIn k r'.
Proof.
  revert i. induction rs as [|r0 rs IH]; intros i Hi; [done|].
  destruct i as [|i]; simpl in Hi.
  - injection Hi as ->. change (<[0%nat := r']> (r :: rs)) with (r' :: rs).
    rewrite !sumOfEntries_cons. lia.
  - change (<[S i := r']> (r0 :: rs)) with (r0 :: <[i := r']> rs).
    rewrite !sumOfEntries_cons, (IH i Hi). lia.
Qed.

(** The score-entry scenario: -7 entered for p1 in a single round is p1's
    total. *)
Example score_entry :
  totalsOf (handleScoreChange "p1" "-7"
              (mkState [mkPlayer "p1" "Ann"] [∅] (Num 0) High SortDefault))
    !! "p1"%string = Some (-7).
Proof. reflexivity. Qed.




(** ** Adding a player *)

Lemma to_int_proper (z : Z) :
  Z.to_int z ≠ Decimal.Pos Decimal.Nil ∧ Z.to_int z ≠ Decimal.Neg Decimal.Nil.
Proof.
  destruct z as [|p|p]; simpl; split; try discriminate;
    intros [= H]; by apply DecimalPos.Unsigned.to_uint_nonnil in H.
Qed.

Lemma toString_inj (a b : Z) : toString a = toString b → a = b.
Proof.
  unfold toString. intros H.
  apply (f_equal NilZero.int_of_string) in H.
  destruct (to_int_proper a), (to_int_proper b).
  rewrite !NilZero.isi in H by done. injection H as H.
  by rewrite <- (DecimalZ.of_to a), <- (DecimalZ.of_to b), H.
Qed.

Lemma truthy_false (t : string) : truthy t = false ↔ t = ""%string.
Proof. by destruct t. Qed.

(** C3, as stated, fails: two players added at the same reading of the
    clock get the same id. *)
Lemma addPlayerFreshId_counterexample :
  ¬ addPlayerFreshId 1700000000000 "Bob"
      (handleAddPlayer 1700000000000 "Ann"
         (mkState [] [∅] (Num 0) High SortDefault)).
Proof.
  intros H. destruct H as (p & Hps & _ & Hfresh); [discriminate|].
  vm_compute in Hps. injection Hps as <-.
  apply Hfresh. vm_compute. apply list_elem_of_here.
Qed.

(** C3, amended.  A name that is empty after trimming leaves the state
    unchanged; otherwise exactly one player is appended, whose name is the
    trimmed input and whose id is the decimal writing of the clock reading.
    That id differs from every existing id when no existing player carries
    the writing of that reading, in which case distinct ids stay distinct;
    and different readings give different ids. *)
Theorem handleAddPlayer_appends_clock_id
    (now : Z) (newPlayerName : string) (s : State) :
  (trim newPlayerName = ""%string → handleAddPlayer now newPlayerName s = s)
  ∧ (trim newPlayerName ≠ ""%string →
       handleAddPlayer now newPlayerName s
       = set_players
           (players s ++ [ {| id := toString now; name := trim newPlayerName |} ]) s)
  ∧ (trim newPlayerName ≠ ""%string →
       toString now ∉ id <$> players s →
       NoDup (id <$> players s) →
       NoDup (id <$> players (handleAddPlayer now newPlayerName s)))
  ∧ (∀ now', now ≠ now' → toString now ≠ toString now').
Proof.
  assert (Hadd : trim newPlayerName ≠ ""%string →
    handleAddPlayer now newPlayerName s
    = set_players
        (players s ++ [ {| id := toString now; name := trim newPlayerName |} ]) s).
  { intros Hne. unfold handleAddPlayer.
    destruct (truthy (trim newPlayerName)) eqn:Ht; [done|].
    by apply truthy_false in Ht. }
  split.
  { intros He. unfold handleAddPlayer. by rewrite He. }
  split; [exact Hadd|]. split.
  { intros Hne Hfresh Hnd. rewrite (Hadd Hne). simpl. rewrite fmap_app.
    apply NoDup_app. split; [done|]. split.
    - intros k Hk [->|Hin%elem_of_nil]%elem_of_cons; done.
    - apply NoDup_singleton. }
  intros now' Hne Heq. by apply Hne, toString_inj.
Qed.

Lemma handleAddPlayer_appends_clock_id_witness :
  let s := handleAddPlayer 1700000000000 "Ann"
             (mkState [] [∅] (Num 0) High SortDefault) in
  players (handleAddPlayer 1700000000451 "  Bob " s)
  = [mkPlayer "1700000000000" "Ann"; mkPlayer "1700000000451" "Bob"]
  ∧ NoDup (id <$> players (handleAddPlayer 1700000000451 "  Bob " s)).
Proof.
  intros s.
  destruct (handleAddPlayer_appends_clock_id 1700000000451 "  Bob " s)
    as (_ & Hadd & Hnd & _).
  split.
  - rewrite Hadd; [reflexivity | discriminate].
  - apply Hnd.
    + discriminate.
    + vm_compute. intros [H|H%elem_of_nil]%elem_of_cons; [discriminate | done].
    + vm_compute. apply NoDup_singleton.
Defined.

(** ** Loading *)

Section PersistenceFacts.
Variable parsePlayers : string → option (list Player).
Variable parseRounds : string → option (list RoundScores).

(** A key that is missing or holds the empty string, and text that
    [JSON.parse] refuses, give the default. *)
Lemma loadPlayers_default (getItem : Storage) :
  (getItem "cardScore_players"%string = None
   ∨ getItem "cardScore_players"%string = Some ""%string
   ∨ ∃ saved, getItem "cardScore_players"%string = Some saved
              ∧ parsePlayers saved = None) →
  loadPlayers parsePlayers getItem = [].
Proof.
  unfold loadPlayers. intros [-> | [-> | (saved & -> & ->)]]; try done.
  by destruct (truthy saved).
Qed.

Lemma loadRounds_default (getItem : Storage) :
  (getItem "cardScore_rounds"%string = None
   ∨ getItem "cardScore_rounds"%string = Some ""%string
   ∨ ∃ saved, getItem "cardScore_rounds"%string = Some saved
              ∧ parseRounds saved = None) →
  loadRounds parseRounds getItem = [∅].
Proof.
  unfold loadRounds. intros [-> | [-> | (saved & -> & ->)]]; try done.
  by destruct (truthy saved).
Qed.

Lemma loadWinCondition_default (getItem : Storage) :
  (∀ saved, getItem "cardScore_winCondition"%string = Some saved →
            saved ≠ "low"%string) →
  loadWinCondition getItem = High.
Proof.
  unfold loadWinCondition. intros H.
  destruct (getItem _) as [saved|]; [|done].
  destruct (String.eqb saved "high"); [done|].
  destruct (String.eqb_spec saved "low"); [|done]. by destruct (H saved).
Qed.

Lemma loadSortBy_default (getItem : Storage) :
  (∀ saved, getItem "cardScore_sortBy"%string = Some saved →
            saved ≠ "scoreDesc"%string ∧ saved ≠ "scoreAsc"%string
            ∧ saved ≠ "nameAsc"%string) →
  loadSortBy getItem = SortDefault.
Proof.
  unfold loadSortBy. intros H.
  destruct (getItem _) as [saved|]; [|done].
  destruct (H saved eq_refl) as (H1 & H2 & H3).
  apply String.eqb_neq in H1, H2, H3. rewrite H1, H2, H3.
  by destruct (String.eqb saved "default").
Qed.

Lemma loadActiveRoundIndex_missing (getItem : Storage) :
  (getItem "cardScore_activeRoundIndex"%string = None
   ∨ getItem "cardScore_activeRoundIndex"%string = Some ""%string) →
  loadActiveRoundIndex getItem = Num 0.
Proof. unfold loadActiveRoundIndex. by intros [-> | ->]. Qed.

(** The stored index is what [parseInt] makes of the text, [NaN]
    included. *)
Lemma loadActiveRoundIndex_saved (getItem : Storage) (saved : string) :
  getItem "cardScore_activeRoundIndex"%string = Some saved →
  saved ≠ ""%string →
  loadActiveRoundIndex getItem = parseInt saved.
Proof.
  unfold loadActiveRoundIndex. intros -> Hne. by destruct saved.
Qed.
End PersistenceFacts.

(** C2.  With the text abc under the key of the active round index, the
    loaded index is [NaN], not the default 0, whatever [JSON.parse] does:
    [parseInt] does not throw, so the [catch] that returns 0 is not
    reached. *)
Theorem loadActiveRoundIndex_non_numeric
    (parsePlayers : string → option (list Player))
    (parseRounds : string → option (list RoundScores)) :
  activeRoundIndex
    (initialState parsePlayers parseRounds
       (singleKey "cardScore_activeRoundIndex" "abc"))
  = NaN
  ∧ ¬ validIndex
      (initialState parsePlayers parseRounds
         (singleKey "cardScore_activeRoundIndex" "abc")).
Proof.
  split; [reflexivity|]. intros (z & Hz & _). discriminate Hz.
Qed.

(** ** The leader *)

Lemma totalsOf_player (s : State) (p : Player) :
  p ∈ players s → totalsOf s !! id p = Some (totalOfPlayer s p).
Proof.
  intros Hp. unfold totalOfPlayer, totalsOf.
  by rewrite totalScores_player.
Qed.

Section LeaderScan.
Variable w : WinCondition.
Variable totals : gmap string Z.
Variable t : Player → Z.

Lemma leaderScan_snoc (ps : list Player) (x : Player) :
  leaderScan w totals (ps ++ [x])
  = leaderStep w totals (leaderScan w totals ps) x.
Proof. unfold leaderScan. by rewrite foldl_snoc. Qed.

(** On players whose totals are all defined, the scan ends on the first
    player whose total none beats. *)
Lemma leaderScan_first_best (ps : list Player) :
  (∀ p, p ∈ ps → totals !! id p = Some (t p)) →
  ps ≠ [] →
  ∃ l1 p l2,
    ps = l1 ++ p :: l2
    ∧ leaderScan w totals ps = (Finite (t p), Some (id p))
    ∧ (∀ q, q ∈ l1 → beats w (t p) (t q))
    ∧ (∀ q, q ∈ l2 → ¬ beats w (t q) (t p)).
Proof.
  induction ps as [|x ps IH] using rev_ind; [done|]. intros Hdef _.
  assert (Hx : totalOf totals (id x) = Num (t x)).
  { unfold totalOf. rewrite (Hdef x); [done|].
    apply elem_of_app. right. apply list_elem_of_here. }
  rewrite leaderScan_snoc. destruct (decide (ps = [])) as [->|Hne].
  - exists [], x, []. split; [done|]. split.
    + unfold leaderScan, leaderStep. simpl. rewrite Hx. by destruct w.
    + split; intros q Hq; by apply elem_of_nil in Hq.
  - destruct IH as (l1 & p & l2 & Hps & Hscan & Hl1 & Hl2); [|done|].
    { intros q Hq. apply Hdef, elem_of_app. by left. }
    rewrite Hscan. unfold leaderStep. rewrite Hx. simpl.
    destruct (decide (beats w (t x) (t p))) as [Hb|Hb].
    + exists ps, x, []. split; [done|]. split.
      { destruct w; simpl in *;
          [destruct (Z.ltb_spec (t p) (t x)) | destruct (Z.ltb_spec (t x) (t p))];
          (done || lia). }
      split; [|intros q Hq; by apply elem_of_nil in Hq].
      intros q Hq. rewrite Hps in Hq.
      apply elem_of_app in Hq as [Hq|Hq].
      * specialize (Hl1 q Hq). destruct w; simpl in *; lia.
      * apply elem_of_cons in Hq as [->|Hq]; [done|].
        specialize (Hl2 q Hq). destruct w; simpl in *; lia.
    + exists l1, p, (l2 ++ [x]). split; [by rewrite Hps, <- app_assoc|]. split.
      { destruct w; simpl in *;
          [destruct (Z.ltb_spec (t p) (t x)) | destruct (Z.ltb_spec (t x) (t p))];
          (done || lia). }
      split; [done|]. intros q Hq.
      apply elem_of_app in Hq as [Hq|Hq]; [by apply Hl2|].
      apply elem_of_cons in Hq as [->|Hq]; [done|]. by apply elem_of_nil in Hq.
Qed.

(** Whatever the totals, the scan reports the leader it started from or
    the id of a player it has seen. *)
Lemma leaderStep_fold_member (ps : list Player) (acc : bound * option string) :
  snd (foldl (leaderStep w totals) acc ps) = snd acc
  ∨ ∃ p, p ∈ ps ∧ snd (foldl (leaderStep w totals) acc ps) = Some (id p).
Proof.
  revert acc. induction ps as [|x ps IH]; intros acc; [by left|].
  cbn [foldl]. destruct (IH (leaderStep w totals acc x)) as [Heq|(p & Hp & Heq)].
  - rewrite Heq. unfold leaderStep.
    destruct (totalOf totals (id x)); [by left|].
    destruct (match w with High => _ | Low => _ end); [|by left].
    right. exists x. split; [apply list_elem_of_here|done].
  - right. exists p. split; [by apply list_elem_of_further|done].
Qed.

Lemma leaderId_member (ps : list Player) (i : string) :
  leaderId ps totals w = Some i → ∃ p, p ∈ ps ∧ id p = i.
Proof.
  unfold leaderId, leaderScan. destruct (length ps =? 0)%nat; [done|].
  destruct (forallb _ ps); [done|]. intros H.
  destruct (leaderStep_fold_member ps
              (match w with High => NegInfinity | Low => PosInfinity end, None))
    as [Heq|(p & Hp & Heq)]; rewrite Heq in H; [done|].
  exists p. split; [done|]. by injection H.
Qed.
End LeaderScan.

Lemma allZero_spec (totals : gmap string Z) (ps : list Player) :
  forallb (λ p, strict_eq (totalOf totals (id p)) (Num 0)) ps = true
  ↔ ∀ p, p ∈ ps → totals !! id p = Some 0.
Proof.
  rewrite List.forallb_forall. setoid_rewrite <- list_elem_of_In.
  split; intros H p Hp; specialize (H p Hp); unfold totalOf in *.
  - destruct (totals !! id p) as [v|]; [|done]. simpl in H.
    apply Z.eqb_eq in H. by subst.
  - by rewrite H.
Qed.

(** On exact totals, there is no leader exactly when there is no player or
    every player's total is 0; otherwise the leader is the id of a player [p]
    such that every player stored before [p] has a strictly worse total
    and no player stored after [p] has a better one: the first player, in
    stored order, whose total is the maximum under high-wins and the
    minimum under low-wins. *)
Theorem leaderId_none_or_first_best (s : State) :
  (leaderOf s = None
   ↔ players s = [] ∨ ∀ p, p ∈ players s → totalsOf s !! id p = Some 0)
  ∧ (leaderOf s ≠ None →
       ∃ l1 p l2,
         players s = l1 ++ p :: l2
         ∧ leaderOf s = Some (id p)
         ∧ (∀ q, q ∈ l1 →
              beats (winCondition s) (totalOfPlayer s p) (totalOfPlayer s q))
         ∧ (∀ q, q ∈ l2 →
              ¬ beats (winCondition s) (totalOfPlayer s q) (totalOfPlayer s p))).
Proof.
  unfold leaderOf, leaderId.
  destruct (decide (players s = [])) as [Hnil|Hnil].
  { rewrite Hnil. simpl. split; [by split; [left|]|done]. }
  assert (Hlen : (length (players s) =? 0)%nat = false).
  { apply Nat.eqb_neq. by destruct (players s). }
  rewrite Hlen.
  destruct (leaderScan_first_best (winCondition s) (totalsOf s) (totalOfPlayer s)
              (players s) (totalsOf_player s) Hnil)
    as (l1 & p & l2 & Hps & Hscan & Hl1 & Hl2).
  destruct (forallb _ (players s)) eqn:Hzero.
  - pose proof (proj1 (allZero_spec _ _) Hzero) as Hall.
    split; [by split; [right|]|done].
  - rewrite Hscan. simpl. split.
    + split; [done|]. intros [?|Hall]; [done|].
      apply (proj2 (allZero_spec _ _)) in Hall. congruence.
    + intros _. by exists l1, p, l2.
Qed.

Lemma leaderId_none_or_first_best_witness :
  let s := mkState [mkPlayer "a" "A"; mkPlayer "b" "B"; mkPlayer "c" "C"]
             [ {[ "a"%string := 4; "b"%string := 10; "c"%string := 5 ]};
               {[ "a"%string := 6 ]} ]
             (Num 1) High SortDefault in
  ∃ l1 p l2,
    players s = l1 ++ p :: l2
    ∧ leaderOf s = Some (id p)
    ∧ (∀ q, q ∈ l1 → totalOfPlayer s q < totalOfPlayer s p)
    ∧ (∀ q, q ∈ l2 → ¬ totalOfPlayer s p < totalOfPlayer s q).
Proof.
  intros s. apply (leaderId_none_or_first_best s). vm_compute. discriminate.
Defined.

(** The leader rule and the zero-state rule on totals 10, 10 and 5. *)
Example leader_rule :
  let ps := [mkPlayer "a" "A"; mkPlayer "b" "B"; mkPlayer "c" "C"] in
  let rs := [ {[ "a"%string := 10; "b"%string := 10; "c"%string := 5 ]} ] in
  leaderOf (mkState ps rs (Num 0) High SortDefault) = Some "a"%string
  ∧ leaderOf (mkState ps rs (Num 0) Low SortDefault) = Some "c"%string
  ∧ leaderOf (mkState ps [∅] (Num 0) High SortDefault) = None
  ∧ leaderOf (mkState ps [ {[ "a"%string := 0 ]} ] (Num 0) Low SortDefault) = None.
Proof. vm_compute. by repeat split. Qed.

(** C10.  A leader is the id of a player of the state; the id of a player
    that has just been removed is not the leader, whatever entries the
    rounds still hold under it. *)
Theorem leaderId_is_current_player (s : State) (i : string) :
  (leaderOf s = Some i → ∃ p, p ∈ players s ∧ id p = i)
  ∧ leaderOf (handleDeletePlayer i s) ≠ Some i.
Proof.
  split; [apply leaderId_member|].
  intros H. apply leaderId_member in H as (p & Hp & Hid).
  simpl in Hp. by apply list_elem_of_filter in Hp as [Hne _].
Qed.

Lemma leaderId_is_current_player_witness :
  let s := mkState [mkPlayer "a" "A"; mkPlayer "b" "B"]
             [ {[ "a"%string := 3; "b"%string := 7; "gone"%string := 100 ]} ]
             (Num 0) High SortDefault in
  (∃ p, p ∈ players s ∧ id p = "b"%string)
  ∧ leaderOf (handleDeletePlayer "b" s) = Some "a"%string.
Proof.
  intros s. split.
  - apply (leaderId_is_current_player s "b"). reflexivity.
  - reflexivity.
Defined.

(** ** Sorting *)

Section SortFacts.
Context {A : Type} (cmp : A → A → number).

Lemma insertSorted_Permutation (x : A) (l : list A) :
  insertSorted cmp x l ≡ₚ x :: l.
Proof.
  induction l as [|y l IH]; [done|]. simpl.
  destruct (keeps cmp x y); [done|]. rewrite IH. apply Permutation_swap.
Qed.

Lemma sort_Permutation (l : list A) : sort cmp l ≡ₚ l.
Proof.
  induction l as [|x l IH]; [done|]. simpl.
  by rewrite insertSorted_Permutation, IH.
Qed.

(** The comparator never puts each of two elements strictly after the
    other. *)
Hypothesis keeps_total : ∀ a b, keeps cmp a b = false → keeps cmp b a = true.



End SortFacts.






Section SortedPlayers.
Variable localeCompare : string → string → Z.

(** The collation is a consistent comparator. *)
Hypothesis localeCompare_antisym :
  ∀ a b, 0 < localeCompare a b → localeCompare b a ≤ 0.
Hypothesis localeCompare_trans :
  ∀ a b c, localeCompare a b ≤ 0 → localeCompare b c ≤ 0 →
           localeCompare a c ≤ 0.

End SortedPlayers.


(** ** Writing a number and reading it back *)

Lemma uintVal_of_uint_acc (d : Decimal.uint) (a : positive) :
  uintVal d (Z.pos a) = Z.pos (Pos.of_uint_acc d a).
Proof.
  revert a. induction d; intros a; cbn [uintVal Pos.of_uint_acc]; [done|..];
    match goal with
    | |- uintVal _ ?x = Z.pos (Pos.of_uint_acc _ ?y) =>
        replace x with (Z.pos y) by lia; apply IHd
    end.
Qed.

Lemma uintVal_of_uint (d : Decimal.uint) :
  uintVal d 0 = Z.of_N (Pos.of_uint d).
Proof.
  induction d; cbn [uintVal Pos.of_uint]; [done|done|..];
    cbn [Z.of_N]; rewrite <- uintVal_of_uint_acc; f_equal.
Qed.

Lemma uintVal_to_uint (p : positive) : uintVal (Pos.to_uint p) 0 = Z.pos p.
Proof. by rewrite uintVal_of_uint, DecimalPos.Unsigned.of_to. Qed.

Ltac eval_digitValue :=
  match goal with
  | |- context [digitValue ?c] =>
      let v := eval vm_compute in (digitValue c) in change (digitValue c) with v
  end.

Lemma digitsPrefix_string_of_uint (d : Decimal.uint) (a : Z) :
  digitsPrefix (Some a) (NilEmpty.string_of_uint d) = Some (uintVal d a).
Proof.
  revert a. induction d; intros a; [done|..];
    cbn [NilEmpty.string_of_uint uintVal];
    (etransitivity; [|apply IHd]); cbn [digitsPrefix];
    change (isDigit _) with true; cbv iota; do 2 f_equal;
    eval_digitValue; change (default 0 (Some a)) with a; lia.
Qed.

Lemma parseInt_string_of_uint (d : Decimal.uint) :
  d ≠ Decimal.Nil →
  parseInt (NilEmpty.string_of_uint d) = Num (uintVal d 0)
  ∧ parseInt (String "-" (NilEmpty.string_of_uint d)) = Num (- uintVal d 0).
Proof.
  intros Hd. destruct d; [done|..]; unfold parseInt;
    cbn [NilEmpty.string_of_uint trimStart uintVal];
    change (isWhiteSpace _) with false; cbv iota;
    cbn [digitsPrefix]; change (isDigit _) with true; cbv iota;
    rewrite digitsPrefix_string_of_uint; split; f_equal;
    eval_digitValue; change (default 0 None) with 0;
    rewrite ?Z.mul_0_r, ?Z.add_0_l; lia.
Qed.

Lemma parseInt_toString (z : Z) : parseInt (toString z) = Num z.
Proof.
  unfold toString.
  destruct z as [|p|p]; [done|..]; cbn [Z.to_int NilZero.string_of_int].
  - pose proof (DecimalPos.Unsigned.to_uint_nonnil p) as Hnil.
    replace (NilZero.string_of_uint (Pos.to_uint p))
      with (NilEmpty.string_of_uint (Pos.to_uint p))
      by (by destruct (Pos.to_uint p)).
    destruct (parseInt_string_of_uint _ Hnil) as [-> _].
    by rewrite uintVal_to_uint.
  - pose proof (DecimalPos.Unsigned.to_uint_nonnil p) as Hnil.
    replace (NilZero.string_of_uint (Pos.to_uint p))
      with (NilEmpty.string_of_uint (Pos.to_uint p))
      by (by destruct (Pos.to_uint p)).
    destruct (parseInt_string_of_uint _ Hnil) as [_ ->].
    by rewrite uintVal_to_uint.
Qed.

Lemma toString_truthy (z : Z) : truthy (toString z) = true.
Proof.
  unfold toString. destruct z as [|p|p]; [done| |done].
  cbn [Z.to_int NilZero.string_of_int].
  pose proof (DecimalPos.Unsigned.to_uint_nonnil p).
  by destruct (Pos.to_uint p).
Qed.

(** ** Saving and loading *)

(** X1.  An active round index that is [NaN] or an integer up to 2^53 in
    absolute value comes back from storage as it was saved, whatever the
    rest of the storage holds: the integer through its decimal writing,
    [NaN] through the text NaN. *)
Theorem activeRoundIndex_round_trip (i : number) (st : Storage) :
  plainIndex i →
  loadActiveRoundIndex
    (setItem "cardScore_activeRoundIndex" (numberToString i) st) = i.
Proof.
  intros _. unfold loadActiveRoundIndex, setItem. rewrite String.eqb_refl.
  destruct i as [|z]; [done|]. cbn [numberToString].
  by rewrite toString_truthy, parseInt_toString.
Qed.

Lemma activeRoundIndex_round_trip_witness :
  loadActiveRoundIndex
    (setItem "cardScore_activeRoundIndex" (numberToString (Num 41)) (λ _, None))
  = Num 41.
Proof. apply activeRoundIndex_round_trip. by vm_compute. Defined.

Section RoundTrip.
Variable parsePlayers : string → option (list Player).
Variable parseRounds : string → option (list RoundScores).
Variable stringifyPlayers : list Player → string.
Variable stringifyRounds : list RoundScores → string.

(** X2.  A state that has been saved is the state that is loaded, provided
    its index is [NaN] or an integer up to 2^53 in absolute value and
    [JSON.parse] returns the players and the rounds from the non-empty
    texts [JSON.stringify] made of them. *)
Theorem persist_initialState_round_trip (s : State) (st : Storage) :
  plainIndex (activeRoundIndex s) →
  truthy (stringifyPlayers (players s)) = true →
  parsePlayers (stringifyPlayers (players s)) = Some (players s) →
  truthy (stringifyRounds (rounds s)) = true →
  parseRounds (stringifyRounds (rounds s)) = Some (rounds s) →
  initialState parsePlayers parseRounds
    (persist stringifyPlayers stringifyRounds s st) = s.
Proof.
  intros _ Htp Hpp Htr Hpr. destruct s as [ps rs i w o]. simpl in *.
  unfold initialState. f_equal.
  - unfold loadPlayers, persist, setItem. simpl. by rewrite Htp, Hpp.
  - unfold loadRounds, persist, setItem. simpl. by rewrite Htr, Hpr.
  - unfold loadActiveRoundIndex, persist, setItem. simpl.
    destruct i as [|z]; [done|]. cbn [numberToString].
    by rewrite toString_truthy, parseInt_toString.
  - by destruct w.
  - by destruct o.
Qed.

(** X3.  Field by field, what cannot be used falls back to the default: no
    players, one empty round, index 0 for a missing or empty text, high
    wins for any text but low, the default order for any text that is not
    another sort option. *)
Theorem initialState_falls_back (getItem : Storage) :
  (unusable parsePlayers (getItem "cardScore_players"%string) →
   players (initialState parsePlayers parseRounds getItem) = [])
  ∧ (unusable parseRounds (getItem "cardScore_rounds"%string) →
     rounds (initialState parsePlayers parseRounds getItem) = [∅])
  ∧ (getItem "cardScore_activeRoundIndex"%string = None
     ∨ getItem "cardScore_activeRoundIndex"%string = Some ""%string →
     activeRoundIndex (initialState parsePlayers parseRounds getItem) = Num 0)
  ∧ ((∀ saved, getItem "cardScore_winCondition"%string = Some saved →
               saved ≠ "low"%string) →
     winCondition (initialState parsePlayers parseRounds getItem) = High)
  ∧ ((∀ saved, getItem "cardScore_sortBy"%string = Some saved →
               saved ≠ "scoreDesc"%string ∧ saved ≠ "scoreAsc"%string
               ∧ saved ≠ "nameAsc"%string) →
     sortBy (initialState parsePlayers parseRounds getItem) = SortDefault).
Proof.
  split; [apply loadPlayers_default|].
  split; [apply loadRounds_default|].
  split; [apply loadActiveRoundIndex_missing|].
  split; [apply loadWinCondition_default | apply loadSortBy_default].
Qed.
End RoundTrip.

Lemma persist_initialState_round_trip_witness :
  let ps := [mkPlayer "17" "Ann"; mkPlayer "18" "Bob"] in
  let rs := [ {[ "17"%string := 3; "18"%string := -4 ]}; ∅ ] in
  let s := mkState ps rs (Num 1) Low NameAsc in
  initialState
    (λ txt, if String.eqb txt "P" then Some ps else None)
    (λ txt, if String.eqb txt "R" then Some rs else None)
    (persist (λ v, if bool_decide (v = ps) then "P" else "?")
             (λ v, if bool_decide (v = rs) then "R" else "?")
             s (λ _, None))
  = s.
Proof.
  intros ps rs s.
  apply (persist_initialState_round_trip
           (λ txt, if String.eqb txt "P" then Some ps else None)
           (λ txt, if String.eqb txt "R" then Some rs else None)
           (λ v, if bool_decide (v = ps) then "P" else "?")
           (λ v, if bool_decide (v = rs) then "R" else "?") s).
  all: by vm_compute.
Defined.

Lemma initialState_falls_back_witness :
  initialState (λ _, None) (λ _, None)
    (setItem "cardScore_players" "{oops" (λ _, None))
  = mkState [] [∅] (Num 0) High SortDefault.
Proof.
  destruct (initialState_falls_back (λ _, None) (λ _, None)
              (setItem "cardScore_players" "{oops" (λ _, None)))
    as (Hp & Hr & Hi & Hw & Ho).
  rewrite <- Hp, <- Hr, <- Hi, <- Hw, <- Ho; try done.
  - by left.
  - by left.
  - right. right. by exists "{oops"%string.
Defined.

(** ** Entering a score: what is written, and what the page shows *)

Lemma parseInt_Num_nonempty (value : string) (n : Z) :
  parseInt value = Num n → String.eqb value "" = false.
Proof. by destruct value. Qed.

Lemma handleScoreChange_valid (s : State) (playerId value : string) (n z : Z)
    (round : RoundScores) :
  parseInt value = Num n →
  activeRoundIndex s = Num z → 0 ≤ z → rounds s !! Z.to_nat z = Some round →
  handleScoreChange playerId value s
  = set_rounds (<[Z.to_nat z := <[playerId := n]> round]> (rounds s)) s.
Proof.
  intros Hp Hi Hz Hr. unfold handleScoreChange.
  by rewrite (parseInt_Num_nonempty _ _ Hp), Hp, Hi, (writeScore_valid _ _ _ _ round).
Qed.

Lemma currentRoundScores_valid (s : State) (z : Z) (round : RoundScores) :
  activeRoundIndex s = Num z → 0 ≤ z → rounds s !! Z.to_nat z = Some round →
  currentRoundScores s = round.
Proof.
  intros Hi Hz Hr. unfold currentRoundScores. rewrite Hi, Hr.
  by destruct (Z.ltb_spec z 0); [lia|].
Qed.

(** X4.  On a state whose index refers to an existing round, an input from
    which [parseInt] reads an integer [n] up to 2^53 in absolute value
    writes [n] under the player's id in the active round and nothing else:
    the other entries of that round, the other rounds, their number, the
    players, the index and the settings stay, and the player's score field
    then shows the decimal writing of [n]. *)
Theorem handleScoreChange_writes_entry
    (s : State) (playerId value : string) (n z : Z) (round : RoundScores) :
  parseInt value = Num n → Z.abs n ≤ maxSafe →
  activeRoundIndex s = Num z → 0 ≤ z → rounds s !! Z.to_nat z = Some round →
  currentRoundScores (handleScoreChange playerId value s) = <[playerId := n]> round
  ∧ (∀ j, j ≠ Z.to_nat z →
       rounds (handleScoreChange playerId value s) !! j = rounds s !! j)
  ∧ length (rounds (handleScoreChange playerId value s)) = length (rounds s)
  ∧ players (handleScoreChange playerId value s) = players s
  ∧ activeRoundIndex (handleScoreChange playerId value s) = activeRoundIndex s
  ∧ winCondition (handleScoreChange playerId value s) = winCondition s
  ∧ sortBy (handleScoreChange playerId value s) = sortBy s
  ∧ (∀ p, id p = playerId →
       scoreInputValue (handleScoreChange playerId value s) p = toString n).
Proof.
  intros Hp _ Hi Hz Hr. rewrite (handleScoreChange_valid _ _ _ n z round) by done.
  assert (Hcur : currentRoundScores
            (set_rounds (<[Z.to_nat z := <[playerId := n]> round]> (rounds s)) s)
          = <[playerId := n]> round).
  { apply (currentRoundScores_valid _ z); [done|done|]. simpl.
    apply list_lookup_insert_eq. by eapply lookup_lt_Some. }
  split; [done|]. split.
  { intros j Hj. simpl. by apply list_lookup_insert_ne. }
  split; [apply length_insert|]. do 4 (split; [done|]).
  intros p <-. unfold scoreInputValue. by rewrite Hcur, lookup_insert_eq.
Qed.

Lemma handleScoreChange_writes_entry_witness :
  let s := mkState [mkPlayer "p1" "Ann"; mkPlayer "p2" "Bob"]
             [ {[ "p1"%string := 2 ]}; {[ "p2"%string := 5 ]} ] (Num 1)
             High SortDefault in
  currentRoundScores (handleScoreChange "p1" " -12pts" s)
  = {[ "p1"%string := -12; "p2"%string := 5 ]}.
Proof.
  intros s.
  destruct (handleScoreChange_writes_entry s "p1" " -12pts" (-12) 1
              {[ "p2"%string := 5 ]}) as [-> _];
    [reflexivity | by vm_compute | reflexivity | lia | reflexivity |].
  reflexivity.
Defined.

(** On exact totals, such an input moves the player's total by the
    difference between [n] and what the active round held for the player
    before (0 when it held nothing), and leaves every other total as it
    was. *)
Theorem handleScoreChange_moves_total
    (s : State) (playerId value : string) (n z : Z) (round : RoundScores) :
  parseInt value = Num n →
  activeRoundIndex s = Num z → 0 ≤ z → rounds s !! Z.to_nat z = Some round →
  totalsOf (handleScoreChange playerId value s) !! playerId
  = (λ t, t - scoreIn playerId round + n) <$> totalsOf s !! playerId
  ∧ (∀ k, k ≠ playerId →
       totalsOf (handleScoreChange playerId value s) !! k = totalsOf s !! k).
Proof.
  intros Hp Hi Hz Hr. rewrite (handleScoreChange_valid _ _ _ n z round) by done.
  unfold totalsOf. simpl. split.
  - rewrite !totalScores_lookup. destruct (decide _); [|done]. simpl. f_equal.
    rewrite (sumOfEntries_insert _ _ round) by done.
    unfold scoreIn at 2. by rewrite lookup_insert_eq.
  - intros k Hk. rewrite !totalScores_lookup. destruct (decide _); [|done].
    f_equal. rewrite (sumOfEntries_insert _ _ round) by done.
    unfold scoreIn. rewrite lookup_insert_ne by done. lia.
Qed.

Lemma handleScoreChange_moves_total_witness :
  let s := mkState [mkPlayer "p1" "Ann"; mkPlayer "p2" "Bob"]
             [ {[ "p1"%string := 2 ]}; {[ "p1"%string := 5; "p2"%string := 1 ]} ]
             (Num 1) High SortDefault in
  totalsOf (handleScoreChange "p1" "8" s) !! "p1"%string = Some 10
  ∧ totalsOf (handleScoreChange "p1" "8" s) !! "p2"%string = Some 1.
Proof.
  intros s.
  destruct (handleScoreChange_moves_total s "p1" "8" 8 1
              {[ "p1"%string := 5; "p2"%string := 1 ]}) as [H1 H2];
    [reflexivity | reflexivity | lia | reflexivity |].
  split; [by rewrite H1 | by rewrite H2].
Defined.




(** ** Moving between rounds *)

Lemma addRound_empty (t : gmap string Z) : addRound t ∅ = t.
Proof. unfold addRound. apply map_fold_empty. Qed.

Lemma totalScores_snoc_empty (ps : list Player) (rs : list RoundScores) :
  totalScores ps (rs ++ [∅]) = totalScores ps rs.
Proof. unfold totalScores. by rewrite foldl_snoc, addRound_empty. Qed.

(** X7.  Moving to the next or the previous round changes no total and no
    leader, from any state. *)
Theorem navigation_keeps_totals (s : State) :
  totalsOf (handleNextRound s) = totalsOf s
  ∧ totalsOf (handlePrevRound s) = totalsOf s
  ∧ leaderOf (handleNextRound s) = leaderOf s
  ∧ leaderOf (handlePrevRound s) = leaderOf s.
Proof.
  assert (Hn : totalsOf (handleNextRound s) = totalsOf s).
  { unfold totalsOf, handleNextRound. simpl.
    destruct (strict_eq _ _); [apply totalScores_snoc_empty | done]. }
  assert (Hp : totalsOf (handlePrevRound s) = totalsOf s).
  { unfold handlePrevRound. by destruct (gt _ _). }
  split; [done|]. split; [done|]. unfold leaderOf. rewrite Hn, Hp. split.
  - done.
  - unfold handlePrevRound. by destruct (gt _ _).
Qed.



(** X9.  In a state whose index refers to an existing round, the Prev
    button is disabled exactly when the handler behind it would change
    nothing. *)
Theorem prevDisabled_iff_no_change (s : State) :
  validIndex s →
  (prevDisabled s = true ↔ handlePrevRound s = s).
Proof.
  intros (z & Hi & Hz). unfold prevDisabled, handlePrevRound. rewrite Hi. simpl.
  destruct (Z.ltb_spec 0 z) as [Hpos|Hle]; split.
  - intros H%Z.eqb_eq. lia.
  - intros H. apply (f_equal activeRoundIndex) in H. simpl in H.
    rewrite Hi in H. injection H. lia.
  - done.
  - intros _. apply Z.eqb_eq. lia.
Qed.

Lemma prevDisabled_iff_no_change_witness :
  let s := mkState [] [∅; ∅] (Num 0) High SortDefault in
  handlePrevRound s = s.
Proof.
  intros s. apply (prevDisabled_iff_no_change s); [|reflexivity].
  exists 0. simpl. split; [done|lia].
Defined.



(** ** Adding and removing players *)

(** X11.  The Add Player button is disabled exactly for the names with
    which the handler behind it would change nothing. *)
Theorem addDisabled_iff_no_change (now : Z) (newPlayerName : string) (s : State) :
  addDisabled newPlayerName = true ↔ handleAddPlayer now newPlayerName s = s.
Proof.
  unfold addDisabled, handleAddPlayer.
  destruct (negb (truthy (trim newPlayerName))); split; try done.
  intros H. apply (f_equal (λ st, length (players st))) in H.
  simpl in H. rewrite length_app in H. simpl in H. lia.
Qed.

Lemma filter_ids_fresh (i : string) (ps : list Player) :
  i ∉ id <$> ps → filter (λ p, id p ≠ i) ps = ps.
Proof.
  induction ps as [|p ps IH]; [done|]. rewrite fmap_cons, not_elem_of_cons.
  intros [Hne Hfresh]. rewrite filter_cons, decide_True by done.
  by rewrite IH.
Qed.

Lemma set_players_same (s : State) : set_players (players s) s = s.
Proof. by destruct s. Qed.

(** X12.  Removing the player that has just been added gives the state
    back, when the clock reading wrote an id that no player carried. *)
Theorem handleDeletePlayer_undoes_add (now : Z) (newPlayerName : string) (s : State) :
  toString now ∉ id <$> players s →
  handleDeletePlayer (toString now) (handleAddPlayer now newPlayerName s) = s.
Proof.
  intros Hfresh. unfold handleAddPlayer, handleDeletePlayer.
  destruct (negb (truthy (trim newPlayerName))).
  - rewrite filter_ids_fresh by done. apply set_players_same.
  - unfold set_players. simpl. rewrite filter_app, filter_ids_fresh by done.
    rewrite filter_cons, decide_False by (simpl; auto). simpl.
    rewrite app_nil_r. by destruct s.
Qed.

Lemma handleDeletePlayer_undoes_add_witness :
  let s := mkState [mkPlayer "17" "Ann"] [ {[ "17"%string := 3 ]} ] (Num 0)
             Low ScoreAsc in
  handleDeletePlayer "18" (handleAddPlayer 18 "Bob" s) = s.
Proof.
  intros s. apply (handleDeletePlayer_undoes_add 18 "Bob" s).
  vm_compute. intros [H|H%elem_of_nil]%elem_of_cons; [discriminate | done].
Defined.



Lemma trimStart_head (s : string) :
  match trimStart s with
  | EmptyString => True
  | String c _ => isWhiteSpace c = false
  end.
Proof.
  induction s as [|c s IH]; [done|]. simpl.
  destruct (isWhiteSpace c) eqn:Hc; [done|]. simpl. done.
Qed.

Lemma trimEnd_idem (s : string) : trimEnd (trimEnd s) = trimEnd s.
Proof.
  induction s as [|c s IH]; [done|]. simpl.
  destruct (trimEnd s) as [|d u] eqn:Hu.
  - destruct (isWhiteSpace c) eqn:Hc; [done|]. simpl. by rewrite Hc.
  - simpl in *. by rewrite IH.
Qed.

Lemma trimStart_trimEnd (s : string) :
  match s with
  | EmptyString => True
  | String c _ => isWhiteSpace c = false
  end →
  trimStart (trimEnd s) = trimEnd s.
Proof.
  destruct s as [|c s]; [done|]. intros Hc. simpl.
  destruct (trimEnd s); rewrite ?Hc; simpl; by rewrite Hc.
Qed.

Lemma trim_idem (s : string) : trim (trim s) = trim s.
Proof.
  unfold trim. rewrite trimStart_trimEnd by apply trimStart_head.
  apply trimEnd_idem.
Qed.

Lemma handle_players_origin (e : Event) (s : State) (p : Player) :
  p ∈ players (handle e s) →
  p ∈ players s
  ∨ ∃ now n, e = AddPlayer now n ∧ trim n ≠ ""%string
             ∧ p = {| id := toString now; name := trim n |}.
Proof.
  destruct e; simpl; try by left.
  - unfold handleAddPlayer.
    destruct (truthy (trim newPlayerName)) eqn:Ht; simpl; [|by left].
    intros [Hp|[->|?%elem_of_nil]%elem_of_cons]%elem_of_app; [by left| |done].
    right. exists now, newPlayerName. repeat split.
    intros He. by rewrite He in Ht.
  - unfold handleScoreChange. destruct (if String.eqb _ _ then _ else _); by left.
  - unfold handlePrevRound. destruct (gt _ _); by left.
  - intros [_ Hp]%list_elem_of_filter. by left.
  - destruct confirmed; by left.
Qed.

(** X14.  No event gives a player an empty name or a name with white space
    at either end: if all names are trimmed and not empty, they are so
    after any run of events. *)
Theorem run_keeps_names_trimmed (es : list Event) (s : State) :
  namesTrimmed s → namesTrimmed (run es s).
Proof.
  revert s. induction es as [|e es IH]; intros s Hs; [done|].
  apply IH. intros p Hp.
  apply handle_players_origin in Hp as [Hp|(now & n & _ & Hne & ->)].
  - by apply Hs.
  - simpl. split; [done | apply trim_idem].
Qed.

Lemma run_keeps_names_trimmed_witness :
  namesTrimmed
    (run [AddPlayer 5 "  Ann "; AddPlayer 6 "   "; AddPlayer 7 "Bob"]
         (mkState [] [∅] (Num 0) High SortDefault)).
Proof.
  apply run_keeps_names_trimmed. intros p Hp. by apply elem_of_nil in Hp.
Defined.

Lemma handle_idsBefore (e : Event) (t : Z) (s : State) :
  idsBefore t s → clockIncreasing t [e] →
  ∃ t', t ≤ t' ∧ idsBefore t' (handle e s)
        ∧ (∀ es, clockIncreasing t (e :: es) → clockIncreasing t' es).
Proof.
  intros Hs Hc.
  assert (Hkeep : ∀ s', (∀ p, p ∈ players s' → p ∈ players s) → idsBefore t s').
  { intros s' Hsub p Hp. by apply Hs, Hsub. }
  destruct e; simpl in *;
    try (exists t; split; [lia|]; split; [|done]; apply Hkeep; simpl; try done).
  - destruct Hc as [Hle _]. exists (now + 1). split; [lia|]. split.
    + intros p Hp.
      apply (handle_players_origin (AddPlayer now newPlayerName)) in Hp
        as [Hp|(now' & n' & [= <- <-] & _ & ->)].
      * destruct (Hs p Hp) as (u & Hu & Hlt). exists u. split; [done|lia].
      * exists now. simpl. split; [done|lia].
    + by intros es [_ H].
  - unfold handleScoreChange. by destruct (if String.eqb _ _ then _ else _).
  - unfold handlePrevRound. by destruct (gt _ _).
  - by intros p [_ Hp]%list_elem_of_filter.
  - by destruct confirmed.
Qed.

Lemma handle_NoDup_ids (e : Event) (t : Z) (s : State) :
  idsBefore t s → clockIncreasing t [e] →
  NoDup (id <$> players s) → NoDup (id <$> players (handle e s)).
Proof.
  intros Hs Hc Hnd. destruct e; simpl in *; try done.
  - unfold handleAddPlayer. destruct (negb _); [done|]. simpl.
    rewrite fmap_app. apply NoDup_app. split; [done|]. split.
    + intros k Hk [->|?%elem_of_nil]%elem_of_cons; [|done].
      apply list_elem_of_fmap in Hk as (p & Hid & Hp).
      destruct (Hs p Hp) as (u & Hu & Hlt). rewrite Hu in Hid.
      apply toString_inj in Hid. lia.
    + apply NoDup_singleton.
  - unfold handleScoreChange. by destruct (if String.eqb _ _ then _ else _).
  - unfold handlePrevRound. by destruct (gt _ _).
  - eapply sublist_NoDup; [exact Hnd|]. apply fmap_sublist, sublist_filter.
  - by destruct confirmed.
Qed.

(** X15.  With a clock whose readings strictly increase from one addition
    to the next, and start later than every reading already used, ids that
    are distinct stay distinct through any run of events. *)
Theorem run_keeps_ids_distinct (es : list Event) (t : Z) (s : State) :
  idsBefore t s → clockIncreasing t es →
  NoDup (id <$> players s) → NoDup (id <$> players (run es s)).
Proof.
  revert t s. induction es as [|e es IH]; intros t s Hs Hc Hnd; [done|].
  assert (Hc1 : clockIncreasing t [e]).
  { destruct e; simpl in *; try done. by destruct Hc. }
  destruct (handle_idsBefore e t s Hs Hc1) as (t' & _ & Hs' & Hc').
  apply (IH t'); [done | by apply Hc' |].
  by apply (handle_NoDup_ids e t).
Qed.

Lemma run_keeps_ids_distinct_witness :
  NoDup (id <$> players
    (run [AddPlayer 5 "Ann"; NextRound; AddPlayer 6 "Bob"; DeletePlayer "5";
          AddPlayer 9 "Cy"]
         (mkState [] [∅] (Num 0) High SortDefault))).
Proof.
  apply (run_keeps_ids_distinct _ 0).
  - intros p Hp. by apply elem_of_nil in Hp.
  - simpl. lia.
  - constructor.
Defined.

(** ** After a reset *)



(** ** The leader among the cards *)

Lemma leaderOf_first_best (s : State) (l : string) :
  leaderOf s = Some l →
  ∃ l1 p l2,
    players s = l1 ++ p :: l2 ∧ id p = l
    ∧ (∀ q, q ∈ l1 →
         beats (winCondition s) (totalOfPlayer s p) (totalOfPlayer s q))
    ∧ (∀ q, q ∈ l2 →
         ¬ beats (winCondition s) (totalOfPlayer s q) (totalOfPlayer s p)).
Proof.
  unfold leaderOf, leaderId. destruct (length (players s) =? 0)%nat eqn:Hlen; [done|].
  destruct (forallb _ _); [done|]. intros Hl.
  destruct (leaderScan_first_best (winCondition s) (totalsOf s) (totalOfPlayer s)
              (players s) (totalsOf_player s))
    as (l1 & p & l2 & Hps & Hscan & Hl1 & Hl2).
  { intros Hnil. by rewrite Hnil in Hlen. }
  rewrite Hscan in Hl. injection Hl as <-. by exists l1, p, l2.
Qed.


Lemma filter_none {A : Type} (P : A → Prop) `{!∀ x, Decision (P x)} (l : list A) :
  (∀ x, x ∈ l → ¬ P x) → filter P l = [].
Proof.
  induction l as [|x l IH]; intros Hl; [done|].
  rewrite filter_cons, decide_False by apply Hl, list_elem_of_here.
  apply IH. intros y Hy. by apply Hl, list_elem_of_further.
Qed.

Lemma filter_id_singleton (ps : list Player) (p : Player) :
  NoDup (id <$> ps) → p ∈ ps → filter (λ q, id q = id p) ps = [p].
Proof.
  induction ps as [|q ps IH]; intros Hnd Hp; [by apply elem_of_nil in Hp|].
  rewrite fmap_cons in Hnd. apply NoDup_cons in Hnd as [Hq Hnd].
  rewrite filter_cons. apply elem_of_cons in Hp as [->|Hp].
  - rewrite decide_True by done. f_equal.
    apply filter_none. intros r Hr Heq. apply Hq.
    rewrite <- Heq. by apply list_elem_of_fmap_2.
  - rewrite decide_False; [by apply IH|].
    intros Heq. apply Hq. rewrite Heq. by apply list_elem_of_fmap_2.
Qed.


Section Cards.
Variable localeCompare : string → string → Z.



(** X19.  When the ids are distinct, exactly one card carries the trophy
    if there is a leader, in every order; without a leader no card does. *)
Theorem one_trophy (s : State) (o : SortOption) :
  NoDup (id <$> players s) →
  (leaderOf s = None →
   filter (λ p, hasTrophy s p = true)
     (sortedPlayers localeCompare (players s) (totalsOf s) o) = [])
  ∧ (∀ l, leaderOf s = Some l →
       ∃ p, filter (λ p, hasTrophy s p = true)
              (sortedPlayers localeCompare (players s) (totalsOf s) o) = [p]
            ∧ id p = l).
Proof.
  intros Hnd.
  assert (Hperm : sortedPlayers localeCompare (players s) (totalsOf s) o
                  ≡ₚ players s).
  { destruct o; simpl; try done; apply sort_Permutation. }
  split.
  - intros Hnone. apply filter_none. intros p _.
    unfold hasTrophy. by rewrite Hnone.
  - intros l Hl.
    destruct (leaderOf_first_best s l Hl) as (l1 & p & l2 & Hps & <- & _).
    exists p. split; [|done].
    apply Permutation_singleton_r.
    rewrite Hperm.
    rewrite (list_filter_iff _ (λ q, id q = id p)).
    + rewrite filter_id_singleton; [done | done |].
      rewrite Hps. apply elem_of_app. right. apply list_elem_of_here.
    + intros q. unfold hasTrophy. rewrite Hl. split.
      * by intros ->%String.eqb_eq.
      * intros ->. apply String.eqb_refl.
Qed.
End Cards.


Lemma one_trophy_witness :
  let s := mkState [mkPlayer "1" "Alice"; mkPlayer "2" "Bob"; mkPlayer "3" "Carl"]
             [ {[ "1"%string := 5; "2"%string := 9; "3"%string := 9 ]} ]
             (Num 0) High NameAsc in
  ∃ p, filter (λ p, hasTrophy s p = true)
         (sortedPlayers lexCompare (players s) (totalsOf s) NameAsc) = [p]
       ∧ id p = "2"%string.
Proof.
  intros s. apply (one_trophy lexCompare s NameAsc); [|reflexivity].
  apply (bool_decide_unpack _). by vm_compute.
Defined.

(** ** How the handlers compose *)

(** X20.  Removing an id that no player carries changes nothing, and two
    removals give the same state in either order. *)
Theorem handleDeletePlayer_absent_and_commute (i j : string) (s : State) :
  (i ∉ id <$> players s → handleDeletePlayer i s = s)
  ∧ handleDeletePlayer i (handleDeletePlayer j s)
    = handleDeletePlayer j (handleDeletePlayer i s).
Proof.
  split.
  - intros Hfresh. unfold handleDeletePlayer.
    rewrite filter_ids_fresh by done. apply set_players_same.
  - unfold handleDeletePlayer, set_players. simpl. f_equal.
    rewrite !list_filter_filter. apply list_filter_iff. tauto.
Qed.

Lemma handleDeletePlayer_absent_and_commute_witness :
  let s := mkState [mkPlayer "17" "Ann"] [ {[ "17"%string := 3 ]} ] (Num 0)
             High SortDefault in
  handleDeletePlayer "18" s = s.
Proof.
  intros s.
  destruct (handleDeletePlayer_absent_and_commute "18" "18" s) as [Habsent _].
  apply Habsent. vm_compute.
  intros [H|H%elem_of_nil]%elem_of_cons; [discriminate | done].
Defined.

Lemma handle_NaN_index (e : Event) (s : State) :
  activeRoundIndex s = NaN → e ≠ ResetGame true →
  activeRoundIndex (handle e s) = NaN ∧ rounds (handle e s) = rounds s.
Proof.
  intros Hi He. destruct e; simpl; try done.
  - unfold handleAddPlayer. by destruct (negb _).
  - unfold handleScoreChange. destruct (if String.eqb _ _ then _ else _); [done|].
    simpl. by rewrite Hi.
  - by rewrite Hi.
  - unfold handlePrevRound. by rewrite Hi.
  - by destruct confirmed.
Qed.

(** X21.  An index that is [NaN] stays [NaN], and the rounds keep their
    elements, through every run of events that has no confirmed reset: no
    score entered is recorded in a round and no navigation leaves the
    state. *)
Theorem run_stuck_at_NaN_index (es : list Event) (s : State) :
  activeRoundIndex s = NaN →
  Forall (λ e, e ≠ ResetGame true) es →
  activeRoundIndex (run es s) = NaN ∧ rounds (run es s) = rounds s.
Proof.
  revert s. induction es as [|e es IH]; intros s Hi Hes; [done|].
  apply Forall_cons in Hes as [He Hes].
  destruct (handle_NaN_index e s Hi He) as [Hi' Hr'].
  destruct (IH (handle e s) Hi' Hes) as [Hi'' Hr'']. simpl.
  split; [done | by rewrite Hr''].
Qed.

Lemma run_stuck_at_NaN_index_witness :
  let s := mkState [mkPlayer "17" "Ann"] [∅] NaN High SortDefault in
  activeRoundIndex (run [ScoreChange "17" "5"; NextRound; PrevRound; ResetGame false] s)
  = NaN
  ∧ rounds (run [ScoreChange "17" "5"; NextRound; PrevRound; ResetGame false] s)
    = [∅].
Proof.
  intros s. apply (run_stuck_at_NaN_index _ s); [reflexivity|].
  repeat constructor; discriminate.
Defined.

Lemma handleScoreChange_valid_cases (s : State) (playerId value : string)
    (z : Z) (round : RoundScores) :
  activeRoundIndex s = Num z → 0 ≤ z → rounds s !! Z.to_nat z = Some round →
  handleScoreChange playerId value s
  = match numValueOf value with
    | NaN => s
    | Num n => set_rounds (<[Z.to_nat z := <[playerId := n]> round]> (rounds s)) s
    end.
Proof.
  intros Hi Hz Hr. unfold handleScoreChange, numValueOf.
  destruct (if String.eqb _ _ then _ else _); [done|].
  by rewrite Hi, (writeScore_valid _ _ _ _ round).
Qed.

Lemma handleScoreChange_twice (s : State) (p q v w : string) (z : Z)
    (round : RoundScores) :
  activeRoundIndex s = Num z → 0 ≤ z → rounds s !! Z.to_nat z = Some round →
  handleScoreChange p v (handleScoreChange q w s)
  = match numValueOf w, numValueOf v with
    | NaN, NaN => s
    | Num m, NaN =>
        set_rounds (<[Z.to_nat z := <[q := m]> round]> (rounds s)) s
    | NaN, Num n =>
        set_rounds (<[Z.to_nat z := <[p := n]> round]> (rounds s)) s
    | Num m, Num n =>
        set_rounds (<[Z.to_nat z := <[p := n]> (<[q := m]> round)]> (rounds s)) s
    end.
Proof.
  intros Hi Hz Hr.
  assert (Hlt : (Z.to_nat z < length (rounds s))%nat) by by eapply lookup_lt_Some.
  rewrite (handleScoreChange_valid_cases s q w z round) by done.
  destruct (numValueOf w) as [|m].
  - by rewrite (handleScoreChange_valid_cases s p v z round).
  - rewrite (handleScoreChange_valid_cases _ p v z (<[q := m]> round));
      [|done|done|by apply list_lookup_insert_eq].
    destruct (numValueOf v) as [|n]; [done|].
    unfold set_rounds. simpl. by rewrite list_insert_insert_eq.
Qed.

(** X22.  On a state whose index refers to an existing round, score inputs
    for two different players give the same state in either order, and of
    two inputs for one player the later one stands when it is accepted. *)
Theorem handleScoreChange_compose
    (s : State) (p q v w : string) (z : Z) (round : RoundScores) :
  activeRoundIndex s = Num z → 0 ≤ z → rounds s !! Z.to_nat z = Some round →
  (p ≠ q →
   handleScoreChange p v (handleScoreChange q w s)
   = handleScoreChange q w (handleScoreChange p v s))
  ∧ (∀ n, parseInt v = Num n →
       handleScoreChange p v (handleScoreChange p w s) = handleScoreChange p v s).
Proof.
  intros Hi Hz Hr. split.
  - intros Hpq. rewrite !(handleScoreChange_twice s _ _ _ _ z round) by done.
    destruct (numValueOf w) as [|m], (numValueOf v) as [|n]; try done.
    by rewrite insert_insert_ne.
  - intros n Hn.
    rewrite (handleScoreChange_twice s _ _ _ _ z round) by done.
    rewrite (handleScoreChange_valid_cases s p v z round) by done.
    assert (Hv : numValueOf v = Num n).
    { unfold numValueOf. by rewrite (parseInt_Num_nonempty _ _ Hn). }
    rewrite Hv. destruct (numValueOf w) as [|m]; [done|].
    by rewrite insert_insert_eq.
Qed.

Lemma handleScoreChange_compose_witness :
  let s := mkState [mkPlayer "p1" "Ann"; mkPlayer "p2" "Bob"] [∅] (Num 0)
             High SortDefault in
  handleScoreChange "p1" "4" (handleScoreChange "p2" "x" s)
  = handleScoreChange "p2" "x" (handleScoreChange "p1" "4" s)
  ∧ handleScoreChange "p1" "4" (handleScoreChange "p1" "9" s)
    = handleScoreChange "p1" "4" s.
Proof.
  intros s.
  destruct (handleScoreChange_compose s "p1" "p2" "4" "x" 0 ∅) as [Hc _];
    [reflexivity | lia | reflexivity |].
  destruct (handleScoreChange_compose s "p1" "p1" "4" "9" 0 ∅) as [_ Hl];
    [reflexivity | lia | reflexivity |].
  split; [by apply Hc | by apply (Hl 4)].
Defined.

(** ** Exact totals and the totals of the program *)

Lemma roundDouble_small (z : Z) : Z.abs z ≤ maxSafe → roundDouble z = JInt z.
Proof.
  intros Hz. unfold roundDouble. cbv zeta.
  by destruct (Z.leb_spec (Z.abs z) maxSafe); [|lia].
Qed.

Lemma inherited_proto (k : string) :
  inherited k = false → String.eqb k "__proto__" = false.
Proof.
  intros Hk. destruct (String.eqb_spec k "__proto__") as [->|]; [|done].
  by vm_compute in Hk.
Qed.

Lemma readTotal_plain (own : gmap string tval) (k : string) :
  inherited k = false → readTotal own k = own !! k.
Proof. intros Hk. unfold readTotal. rewrite Hk. by destruct (own !! k). Qed.

Lemma writeTotal_plain (own : gmap string tval) (k : string) (v : tval) :
  inherited k = false → writeTotal own k v = <[k := v]> own.
Proof. intros Hk. unfold writeTotal. by rewrite inherited_proto. Qed.

Lemma roundMagnitude_bound (round : RoundScores) :
  0 ≤ roundMagnitude round
  ∧ ∀ k e, round !! k = Some e → Z.abs e ≤ roundMagnitude round.
Proof.
  unfold roundMagnitude.
  apply (map_fold_weak_ind
           (λ acc m, 0 ≤ acc ∧ ∀ k e, m !! k = Some e → Z.abs e ≤ acc)).
  - split; [done|]. intros k e. by rewrite lookup_empty.
  - intros i x m acc Hi [Hacc IH]. split; [lia|]. intros k e.
    destruct (decide (k = i)) as [->|Hne].
    + rewrite lookup_insert_eq. intros [= ->]. lia.
    + rewrite lookup_insert_ne by done. intros He. specialize (IH k e He). lia.
Qed.

Lemma scoreIn_magnitude (k : string) (round : RoundScores) :
  Z.abs (scoreIn k round) ≤ roundMagnitude round.
Proof.
  destruct (roundMagnitude_bound round) as [H0 Hb]. unfold scoreIn.
  destruct (round !! k) as [e|] eqn:He; simpl; [by apply (Hb k)|lia].
Qed.

Lemma magnitude_nonneg (rs : list RoundScores) : 0 ≤ magnitude rs.
Proof.
  induction rs as [|r rs IH]; simpl; [done|].
  destruct (roundMagnitude_bound r). lia.
Qed.

Lemma initTotalsD_fold_exact (ps : list Player) (m : gmap string Z) :
  Forall (λ p, inherited (id p) = false) ps →
  foldl (λ own p, writeTotal own (id p) (TNum (JInt 0))) (embedTotals m) ps
  = embedTotals (foldl (λ totals p, <[id p := 0]> totals) m ps).
Proof.
  intros Hps. revert m.
  induction Hps as [|p ps Hp _ IH]; intros m; [done|]. cbn [foldl].
  rewrite writeTotal_plain by done. rewrite <- IH. unfold embedTotals.
  by rewrite fmap_insert.
Qed.

Lemma initTotalsD_exact (ps : list Player) :
  Forall (λ p, inherited (id p) = false) ps →
  initTotalsD ps = embedTotals (initTotals ps).
Proof.
  intros Hps. unfold initTotalsD, initTotals.
  rewrite <- initTotalsD_fold_exact by done. unfold embedTotals.
  by rewrite fmap_empty.
Qed.

Lemma addRoundD_lookup (own : gmap string tval) (round : RoundScores) (k : string) :
  map_Forall (λ k _, inherited k = false) round →
  addRoundD own round !! k
  = match round !! k with
    | Some e => (λ v, plusD v e) <$> own !! k
    | None => own !! k
    end.
Proof.
  unfold addRoundD. revert k.
  apply (map_fold_weak_ind
           (λ res m, ∀ k, map_Forall (λ k _, inherited k = false) m →
              res !! k = match m !! k with
                         | Some e => (λ v, plusD v e) <$> own !! k
                         | None => own !! k
                         end)).
  - intros k _. by rewrite lookup_empty.
  - intros i x m res Hi IH k Hplain.
    assert (Hpi : inherited i = false).
    { apply (Hplain i x). apply lookup_insert_eq. }
    assert (Hpm : map_Forall (λ k _, inherited k = false) m).
    { intros j y Hj. apply (Hplain j y). rewrite lookup_insert_ne; [done|].
      intros ->. by rewrite Hi in Hj. }
    assert (Hres : res !! i = own !! i).
    { by rewrite (IH i Hpm), Hi. }
    unfold addEntryD. rewrite readTotal_plain, Hres by done.
    destruct (decide (k = i)) as [->|Hne].
    + rewrite lookup_insert_eq. destruct (own !! i) as [v|] eqn:Hv.
      * rewrite writeTotal_plain by done. by rewrite lookup_insert_eq.
      * done.
    + rewrite lookup_insert_ne by done. rewrite <- (IH k Hpm).
      destruct (own !! i); [|done].
      rewrite writeTotal_plain by done. by rewrite lookup_insert_ne.
Qed.

Lemma addRoundD_exact (t : gmap string Z) (round : RoundScores) :
  map_Forall (λ k _, inherited k = false) round →
  (∀ k v, t !! k = Some v → Z.abs v + roundMagnitude round ≤ maxSafe) →
  addRoundD (embedTotals t) round = embedTotals (addRound t round).
Proof.
  intros Hplain Hbound. apply map_eq. intros k.
  rewrite addRoundD_lookup by done. unfold embedTotals.
  rewrite !lookup_fmap, addRound_lookup.
  pose proof (scoreIn_magnitude k round) as Hk. unfold scoreIn in *.
  destruct (t !! k) as [v|] eqn:Hv; simpl; [|by destruct (round !! k)].
  specialize (Hbound k v Hv).
  destruct (round !! k) as [e|]; simpl in *.
  - rewrite roundDouble_small; [done|lia].
  - do 3 f_equal. lia.
Qed.

Lemma foldl_addRoundD_exact (rs : list RoundScores) (t : gmap string Z) :
  plainRounds rs →
  (∀ k v, t !! k = Some v → Z.abs v + magnitude rs ≤ maxSafe) →
  foldl addRoundD (embedTotals t) rs = embedTotals (foldl addRound t rs).
Proof.
  intros Hplain. revert t.
  induction Hplain as [|r rs Hr _ IH]; intros t Hbound; [done|]. cbn [foldl].
  pose proof (magnitude_nonneg rs) as Hrs.
  rewrite addRoundD_exact; [|done|].
  - apply IH. intros k v. rewrite addRound_lookup.
    destruct (t !! k) as [v0|] eqn:Hv0; [|done]. simpl. intros [= <-].
    specialize (Hbound k v0 Hv0). pose proof (scoreIn_magnitude k r).
    simpl in Hbound. lia.
  - intros k v Hv. specialize (Hbound k v Hv). simpl in Hbound. lia.
Qed.

(** Within 2^53 and without inherited names, the totals of the program
    are the exact totals. *)
Lemma totalScoresD_exact (ps : list Player) (rs : list RoundScores) :
  Forall (λ p, inherited (id p) = false) ps → plainRounds rs →
  magnitude rs ≤ maxSafe →
  totalScoresD ps rs = embedTotals (totalScores ps rs).
Proof.
  intros Hps Hrs Hmag. unfold totalScoresD, totalScores.
  rewrite initTotalsD_exact by done. apply foldl_addRoundD_exact; [done|].
  intros k v. rewrite initTotals_lookup. destruct (decide _); [|done].
  intros [= <-]. simpl. lia.
Qed.



(** Nor is a total the sum of the entries once the sum leaves the integers
    that doubles hold: 2^53 and 1 add up to 2^53. *)
Example totalScoresD_rounds_sum :
  let s := mkState [mkPlayer "1" "Ann"]
             [ {[ "1"%string := maxSafe ]}; {[ "1"%string := 1 ]} ]
             (Num 0) High SortDefault in
  totalsOfD s !! "1"%string = Some (TNum (JInt maxSafe))
  ∧ sumOfEntries "1" (rounds s) = maxSafe + 1.
Proof. by vm_compute. Qed.



(** ** The leader of the program *)

Lemma totalsFrom_lookup (t : Player → Z) (ps : list Player) (p : Player) :
  (∀ q r, q ∈ ps → r ∈ ps → id q = id r → t q = t r) →
  p ∈ ps → totalsFrom t ps !! id p = Some (t p).
Proof.
  induction ps as [|x ps IH]; intros Hcons Hp; [by apply elem_of_nil in Hp|].
  simpl. destruct (decide (id x = id p)) as [Heq|Hne].
  - rewrite Heq, lookup_insert_eq. f_equal.
    apply Hcons; [apply list_elem_of_here | done | done].
  - rewrite lookup_insert_ne by done.
    apply elem_of_cons in Hp as [->|Hp]; [done|]. apply IH; [|done].
    intros q r Hq Hr. apply Hcons; by apply list_elem_of_further.
Qed.

Lemma leaderStepD_agrees (w : WinCondition) (own : gmap string tval)
    (tz : gmap string Z) (b : bound) (l : option string) (p : Player) (z : Z) :
  readTotal own (id p) = Some (TNum (JInt z)) → tz !! id p = Some z →
  leaderStepD w own (boundOf b, l) p
  = (boundOf (fst (leaderStep w tz (b, l) p)), snd (leaderStep w tz (b, l) p)).
Proof.
  intros Hown Htz. unfold leaderStepD, leaderStep, totalOf, jgt.
  rewrite Hown, Htz. simpl.
  destruct w, b as [| |y]; simpl; try done.
  - by destruct (y <? z).
  - by destruct (z <? y).
Qed.

Lemma leaderScanD_agrees (w : WinCondition) (own : gmap string tval)
    (tz : gmap string Z) (t : Player → Z) (ps : list Player)
    (b : bound) (l : option string) :
  (∀ p, p ∈ ps → readTotal own (id p) = Some (TNum (JInt (t p)))
                 ∧ tz !! id p = Some (t p)) →
  snd (foldl (leaderStepD w own) (boundOf b, l) ps)
  = snd (foldl (leaderStep w tz) (b, l) ps).
Proof.
  revert b l. induction ps as [|p ps IH]; intros b l Hps; [done|]. cbn [foldl].
  destruct (Hps p (list_elem_of_here _ _)) as [Hown Htz].
  rewrite (leaderStepD_agrees w own tz b l p (t p)) by done.
  destruct (leaderStep w tz (b, l) p) as [b' l']. simpl.
  apply IH. intros q Hq. by apply Hps, list_elem_of_further.
Qed.

Lemma leaderIdD_agrees (w : WinCondition) (own : gmap string tval)
    (tz : gmap string Z) (t : Player → Z) (ps : list Player) :
  (∀ p, p ∈ ps → readTotal own (id p) = Some (TNum (JInt (t p)))
                 ∧ tz !! id p = Some (t p)) →
  leaderIdD ps own w = leaderId ps tz w.
Proof.
  intros Hps. unfold leaderIdD, leaderId, leaderScan.
  destruct (length ps =? 0)%nat; [done|].
  assert (Hzero : forallb (λ p, isZero (readTotal own (id p))) ps
                  = forallb (λ p, strict_eq (totalOf tz (id p)) (Num 0)) ps).
  { clear -Hps. induction ps as [|p ps IH]; [done|]. simpl.
    destruct (Hps p (list_elem_of_here _ _)) as [Hown Htz].
    rewrite IH by (intros q Hq; by apply Hps, list_elem_of_further).
    f_equal. unfold totalOf. rewrite Hown, Htz. simpl. by destruct (t p). }
  rewrite Hzero. clear Hzero.
  destruct (forallb (λ p, strict_eq (totalOf tz (id p)) (Num 0)) ps);
    [reflexivity|].
  destruct w; [apply (leaderScanD_agrees High own tz t ps NegInfinity None Hps)
              | apply (leaderScanD_agrees Low own tz t ps PosInfinity None Hps)].
Qed.

Lemma leaderId_first_best (ps : list Player) (tz : gmap string Z)
    (w : WinCondition) (t : Player → Z) :
  (∀ p, p ∈ ps → tz !! id p = Some (t p)) →
  (leaderId ps tz w = None ↔ ps = [] ∨ ∀ p, p ∈ ps → t p = 0)
  ∧ (leaderId ps tz w ≠ None →
       ∃ l1 p l2,
         ps = l1 ++ p :: l2
         ∧ leaderId ps tz w = Some (id p)
         ∧ (∀ q, q ∈ l1 → beats w (t p) (t q))
         ∧ (∀ q, q ∈ l2 → ¬ beats w (t q) (t p))).
Proof.
  intros Hdef. unfold leaderId.
  destruct (decide (ps = [])) as [->|Hnil].
  { simpl. split; [by split; [left|]|done]. }
  assert (Hlen : (length ps =? 0)%nat = false).
  { apply Nat.eqb_neq. by destruct ps. }
  rewrite Hlen.
  destruct (leaderScan_first_best w tz t ps Hdef Hnil)
    as (l1 & p & l2 & Hps & Hscan & Hl1 & Hl2).
  assert (Hall : (∀ q, q ∈ ps → tz !! id q = Some 0) ↔ (∀ q, q ∈ ps → t q = 0)).
  { split; intros H q Hq; specialize (H q Hq); rewrite (Hdef q Hq) in *;
      congruence. }
  destruct (forallb _ ps) eqn:Hzero.
  - pose proof (proj1 (allZero_spec _ _) Hzero) as Hz.
    split; [|done]. split; [|done]. intros _. right. by apply (proj1 Hall).
  - rewrite Hscan. simpl. split.
    + split; [done|]. intros [?|Hz]; [done|].
      pose proof (proj2 (allZero_spec tz ps) (proj2 Hall Hz)). congruence.
    + intros _. by exists l1, p, l2.
Qed.

(** C4, as stated, fails: two entries of 2^1023 add up to Infinity, which
    under low-wins is not below the Infinity the scan starts from; there is
    a player, the total is not 0, and there is no leader. *)
Lemma noLeaderIffAllZero_counterexample :
  ¬ noLeaderIffAllZero
      (mkState [mkPlayer "1" "Ann"]
               [ {[ "1"%string := 2 ^ 1023 ]}; {[ "1"%string := 2 ^ 1023 ]} ]
               (Num 1) Low SortDefault).
Proof.
  intros [Hnone _].
  destruct Hnone as [Hnil|Hzero]; [by vm_compute | discriminate Hnil |].
  specialize (Hzero (mkPlayer "1" "Ann") (list_elem_of_here _ _)).
  vm_compute in Hzero. discriminate Hzero.
Qed.

(** C4, amended.  In a state in which every player's total is a finite
    number: there is no leader exactly when there is no player or every
    player's total is 0; otherwise the leader is the id of a player [p]
    such that every player stored before [p] has a strictly worse total
    and no player stored after [p] has a better one: the first player, in
    stored order, whose total is the maximum under high-wins and the
    minimum under low-wins. *)
Theorem leaderIdD_none_or_first_best (s : State) (t : Player → Z) :
  (∀ p, p ∈ players s →
        readTotal (totalsOfD s) (id p) = Some (TNum (JInt (t p)))) →
  (leaderOfD s = None ↔ players s = [] ∨ ∀ p, p ∈ players s → t p = 0)
  ∧ (leaderOfD s ≠ None →
       ∃ l1 p l2,
         players s = l1 ++ p :: l2
         ∧ leaderOfD s = Some (id p)
         ∧ (∀ q, q ∈ l1 → beats (winCondition s) (t p) (t q))
         ∧ (∀ q, q ∈ l2 → ¬ beats (winCondition s) (t q) (t p))).
Proof.
  intros Hfin.
  assert (Hcons : ∀ q r, q ∈ players s → r ∈ players s →
                         id q = id r → t q = t r).
  { intros q r Hq Hr Heq. pose proof (Hfin q Hq) as H1.
    rewrite Heq, (Hfin r Hr) in H1. by injection H1. }
  unfold leaderOfD.
  rewrite (leaderIdD_agrees _ _ (totalsFrom t (players s)) t).
  - apply leaderId_first_best. intros p Hp. by apply totalsFrom_lookup.
  - intros p Hp. split; [by apply Hfin | by apply totalsFrom_lookup].
Qed.

Lemma leaderIdD_none_or_first_best_witness :
  let s := mkState [mkPlayer "a" "A"; mkPlayer "b" "B"]
             [ {[ "a"%string := 4; "b"%string := 10 ]}; {[ "a"%string := 6 ]} ]
             (Num 1) High SortDefault in
  ∃ l1 p l2,
    players s = l1 ++ p :: l2
    ∧ leaderOfD s = Some (id p)
    ∧ (∀ q, q ∈ l1 → sumOfEntries (id q) (rounds s) < sumOfEntries (id p) (rounds s))
    ∧ (∀ q, q ∈ l2 → ¬ sumOfEntries (id p) (rounds s) < sumOfEntries (id q) (rounds s)).
Proof.
  intros s.
  apply (leaderIdD_none_or_first_best s (λ p, sumOfEntries (id p) (rounds s))).
  - intros p Hp.
    apply elem_of_cons in Hp as [->|Hp]; [by vm_compute|].
    apply elem_of_cons in Hp as [->|Hp]; [by vm_compute|].
    by apply elem_of_nil in Hp.
  - vm_compute. discriminate.
Defined.

(** The leader rule and the zero-state rule on totals 10, 10 and 5, with
    the numbers of the program. *)
Example leaderD_rule :
  let ps := [mkPlayer "a" "A"; mkPlayer "b" "B"; mkPlayer "c" "C"] in
  let rs := [ {[ "a"%string := 10; "b"%string := 10; "c"%string := 5 ]} ] in
  leaderOfD (mkState ps rs (Num 0) High SortDefault) = Some "a"%string
  ∧ leaderOfD (mkState ps rs (Num 0) Low SortDefault) = Some "c"%string
  ∧ leaderOfD (mkState ps [∅] (Num 0) High SortDefault) = None
  ∧ leaderOfD (mkState ps [ {[ "a"%string := 0 ]} ] (Num 0) Low SortDefault) = None.
Proof. vm_compute. by repeat split. Qed.

(** ** Texts that are not integers *)


(** What the program makes of texts that are not integers: it stores the
    integer they start with, if any; the empty text stores 0. *)
Example handleScoreChange_reads_prefix :
  let s := mkState [mkPlayer "p1" "Ann"] [ {[ "p1"%string := 4 ]} ] (Num 0)
             High SortDefault in
  currentRoundScores (handleScoreChange "p1" "12abc" s) !! "p1"%string = Some 12
  ∧ currentRoundScores (handleScoreChange "p1" "7 up" s) !! "p1"%string = Some 7
  ∧ currentRoundScores (handleScoreChange "p1" "1.5" s) !! "p1"%string = Some 1
  ∧ currentRoundScores (handleScoreChange "p1" "0x1A" s) !! "p1"%string = Some 0
  ∧ currentRoundScores (handleScoreChange "p1" "" s) !! "p1"%string = Some 0
  ∧ handleScoreChange "p1" "abc" s = s
  ∧ handleScoreChange "p1" ".5" s = s
  ∧ handleScoreChange "p1" "-" s = s.
Proof. vm_compute. by repeat split. Qed.






(** ** A score input and the totals of the program *)

(** X5.  On a state whose index refers to an existing round, an accepted
    input [n] moves the player's total by the difference between [n] and
    what the active round held for the player before (0 when it held
    nothing), and leaves every other total as it was, provided that no key
    involved is the name of a property of [Object.prototype] and that the
    absolute values of the entries add up to at most 2^53 before and
    after. *)
Theorem handleScoreChange_moves_totalD
    (s : State) (playerId value : string) (n z : Z) (round : RoundScores) :
  parseInt value = Num n →
  activeRoundIndex s = Num z → 0 ≤ z → rounds s !! Z.to_nat z = Some round →
  plainKeys s → inherited playerId = false →
  magnitude (rounds s) ≤ maxSafe →
  magnitude (rounds (handleScoreChange playerId value s)) ≤ maxSafe →
  (∀ t, totalsOfD s !! playerId = Some (TNum (JInt t)) →
        totalsOfD (handleScoreChange playerId value s) !! playerId
        = Some (TNum (JInt (t - scoreIn playerId round + n))))
  ∧ (∀ k, k ≠ playerId →
       totalsOfD (handleScoreChange playerId value s) !! k = totalsOfD s !! k).
Proof.
  intros Hp Hi Hz Hr [Hps Hrs] Hk Hmag Hmag'.
  destruct (handleScoreChange_moves_total s playerId value n z round Hp Hi Hz Hr)
    as [Hown Hother].
  assert (Hrs' : plainRounds (rounds (handleScoreChange playerId value s))).
  { rewrite (handleScoreChange_valid _ _ _ n z round) by done. simpl.
    apply Forall_insert; [done|]. apply map_Forall_insert_2; [done|].
    by apply (Forall_lookup_1 _ _ _ _ Hrs Hr). }
  assert (Hps' : players (handleScoreChange playerId value s) = players s).
  { by rewrite (handleScoreChange_valid _ _ _ n z round). }
  assert (HD : totalsOfD s = embedTotals (totalsOf s)).
  { by apply totalScoresD_exact. }
  assert (HD' : totalsOfD (handleScoreChange playerId value s)
                = embedTotals (totalsOf (handleScoreChange playerId value s))).
  { apply totalScoresD_exact; [by rewrite Hps' | done | done]. }
  rewrite HD, HD'. unfold embedTotals. split.
  - intros t. rewrite !lookup_fmap, Hown.
    destruct (totalsOf s !! playerId); simpl; [|done]. by intros [= <-].
  - intros k Hne. by rewrite !lookup_fmap, Hother.
Qed.

Lemma handleScoreChange_moves_totalD_witness :
  let s := mkState [mkPlayer "p1" "Ann"; mkPlayer "p2" "Bob"]
             [ {[ "p1"%string := 2 ]}; {[ "p1"%string := 5; "p2"%string := 1 ]} ]
             (Num 1) High SortDefault in
  totalsOfD (handleScoreChange "p1" "8" s) !! "p1"%string = Some (TNum (JInt 10))
  ∧ totalsOfD (handleScoreChange "p1" "8" s) !! "p2"%string = Some (TNum (JInt 1)).
Proof.
  intros s.
  destruct (handleScoreChange_moves_totalD s "p1" "8" 8 1
              {[ "p1"%string := 5; "p2"%string := 1 ]}) as [H1 H2].
  - reflexivity.
  - reflexivity.
  - lia.
  - reflexivity.
  - unfold plainKeys, plainRounds. apply (bool_decide_unpack _). by vm_compute.
  - reflexivity.
  - by vm_compute.
  - by vm_compute.
  - split.
    + apply (H1 7). by vm_compute.
    + rewrite H2 by discriminate. by vm_compute.
Defined.

(** Within 2^53 and without inherited names, the leader of the program is
    the leader on exact totals. *)
Lemma leaderOfD_exact (s : State) :
  plainKeys s → magnitude (rounds s) ≤ maxSafe → leaderOfD s = leaderOf s.
Proof.
  intros [Hps Hrs] Hmag. unfold leaderOfD, leaderOf.
  apply (leaderIdD_agrees _ _ _ (totalOfPlayer s)). intros p Hp.
  assert (Hplain : inherited (id p) = false).
  { by apply (proj1 (Forall_forall _ _) Hps). }
  rewrite readTotal_plain by done. unfold totalsOfD.
  rewrite totalScoresD_exact by done. unfold embedTotals.
  rewrite lookup_fmap.
  change (totalScores (players s) (rounds s)) with (totalsOf s).
  by rewrite totalsOf_player.
Qed.
